(** * Reachability of 1-safe Petri nets: the adapter and the BFS engine of
      [reachability.py], embedded with stdpp finite sets and maps. *)

From stdpp Require Import gmap strings list fin_sets relations.

(** ** Python values and exceptions *)

(** A marking is a [frozenset] of place identifiers; a mutable [set] of place
    identifiers has the same values. *)
Abbreviation marking := (gset string) (only parsing).

(** The [{'pre': set, 'post': set}] dictionary stored for one transition. *)
Abbreviation t_info := (gmap string (gset string)) (only parsing).

(** A [dict] keyed by transition identifier, in insertion order (the order
    [.items()] yields). *)
Abbreviation table := (list (string * gmap string (gset string))) (only parsing).

Inductive exn : Type :=
  | KeyError (key : string)
  | TypeError.

(** Outcome of running Python code with a bound on the number of [while]
    iterations. *)
Inductive result (A : Type) : Type :=
  | Ok (a : A)
  | Raise (e : exn)
  | Timeout.
Arguments Ok {A} a.
Arguments Raise {A} e.
Arguments Timeout {A}.

Global Instance exn_eq_dec : EqDecision exn.
Proof. solve_decision. Defined.
Global Instance result_eq_dec {A} `{EqDecision A} : EqDecision (result A).
Proof. solve_decision. Defined.

Global Instance result_ret : MRet result := λ A a, Ok a.
Global Instance result_fmap : FMap result := λ A B f m,
  match m with
  | Ok a => Ok (f a)
  | Raise e => Raise e
  | Timeout => Timeout
  end.
Global Instance result_bind : MBind result := λ A B f m,
  match m with
  | Ok a => f a
  | Raise e => Raise e
  | Timeout => Timeout
  end.

(** [d[key]] on a dictionary. *)
Definition getitem {V : Type} (d : gmap string V) (key : string) : result V :=
  match d !! key with
  | Some v => Ok v
  | None => Raise (KeyError key)
  end.

(** [a.issubset(b)]: every element of [a] is looked up in [b]. *)
Definition issubset (a b : gset string) : bool :=
  forallb (λ p, bool_decide (p ∈ b)) (elements a).

(** The dictionary literal [{'pre': pre, 'post': post}]. *)
Definition mk_info (pre post : gset string) : t_info :=
  {[ "pre" := pre; "post" := post ]}.

(** [key in d], [d[key]] and [d[key] = v] on a dictionary kept in insertion
    order: assigning to a key that is present keeps its position. *)
Definition contains {V : Type} (d : list (string * V)) (key : string) : bool :=
  bool_decide (key ∈ d.*1).

Fixpoint dict_getitem {V : Type} (d : list (string * V)) (key : string)
    : result V :=
  match d with
  | [] => Raise (KeyError key)
  | (k, v) :: d' => if decide (k = key) then Ok v else dict_getitem d' key
  end.

Fixpoint setitem {V : Type} (key : string) (v : V) (d : list (string * V))
    : list (string * V) :=
  match d with
  | [] => [(key, v)]
  | (k, v') :: d' =>
      if decide (k = key) then (key, v) :: d' else (k, v') :: setitem key v d'
  end.

(** ** The adapter: [convert_net_to_bfs_format] *)

(** Modelled from the spec: the Net Model of the module [pnml_parser], which
    the adapter imports and which is not part of this source tree.  Places
    carry an identifier and an initial token count, transitions an identifier,
    arcs a source and a target identifier; [places] and [transitions] are
    dictionaries keyed by identifier. *)
Module pnml_parser.
Record Place : Type := { id : string; initial_marking : Z }.
Record Transition : Type := { transition_id : string }.
Record Arc : Type := { source : string; target : string }.
Record PetriNet : Type := {
  places : list (string * Place);
  transitions : list (string * Transition);
  arcs : list Arc;
}.
End pnml_parser.
Import pnml_parser.

(** [transitions_dict[t_id][field].add(place)]: the set stored under [field]
    is updated in place. *)
Definition add_place (field t_id place : string) (transitions_dict : table)
    : result (list (string * gmap string (gset string))) :=
  info ← dict_getitem transitions_dict t_id;
  set ← getitem info field;
  Ok (setitem t_id (<[field := {[place]} ∪ set]> info) transitions_dict).

(** Body of the [for arc in net.arcs] loop. *)
Definition arc_body (net : PetriNet) (arc : Arc) (transitions_dict : table)
    : result (list (string * gmap string (gset string))) :=
  let source_id := source arc in
  let target_id := target arc in
  if contains (places net) source_id && contains (transitions net) target_id
  then add_place "pre" target_id source_id transitions_dict
  else if contains (transitions net) source_id && contains (places net) target_id
  then add_place "post" source_id target_id transitions_dict
  else Ok transitions_dict.

Fixpoint for_arcs (net : PetriNet) (todo : list Arc) (transitions_dict : table)
    : result (list (string * gmap string (gset string))) :=
  match todo with
  | [] => Ok transitions_dict
  | arc :: todo' =>
      transitions_dict' ← arc_body net arc transitions_dict;
      for_arcs net todo' transitions_dict'
  end.

Definition convert_net_to_bfs_format (net : PetriNet)
    : result (gset string * list (string * gmap string (gset string))) :=
  let initial_marking_set : gset string :=
    list_to_set
      (id <$> filter (λ p, (0 < initial_marking p)%Z) (places net).*2) in
  let transitions_dict :=
    foldl (λ d t_id, setitem t_id (mk_info ∅ ∅) d) [] (transitions net).*1 in
  transitions_dict ← for_arcs net (arcs net) transitions_dict;
  Ok (initial_marking_set, transitions_dict).

(** ** The engine: [find_reachable_markings_bfs] *)

(** The two local objects the loop mutates. *)
Record bfs_state : Type := BfsState {
  visited : gset (gset string);
  queue : list (gset string);
}.

(** Body of the [for t_id, t_info in all_transitions.items()] loop. *)
Definition for_body (current_marking : marking) (t_info : t_info)
    (s : bfs_state) : result bfs_state :=
  pre_set ← getitem t_info "pre";
  post_set ← getitem t_info "post";
  if issubset pre_set current_marking then
    let temp_marking := current_marking ∖ pre_set in
    let next_marking_set := temp_marking ∪ post_set in
    let next_marking := next_marking_set in
    if bool_decide (next_marking ∈ visited s) then Ok s
    else Ok {| visited := {[next_marking]} ∪ visited s;
               queue := queue s ++ [next_marking] |}
  else Ok s.

Fixpoint for_transitions (items : table) (current_marking : marking)
    (s : bfs_state) : result bfs_state :=
  match items with
  | [] => Ok s
  | (_, t_info) :: items' =>
      s' ← for_body current_marking t_info s;
      for_transitions items' current_marking s'
  end.

(** The [while queue:] loop; [fuel] bounds the number of iterations. *)
Fixpoint while_queue (fuel : nat) (all_transitions : table) (s : bfs_state)
    : result (gset (gset string)) :=
  match queue s with
  | [] => Ok (visited s)
  | current_marking :: rest =>
      match fuel with
      | O => Timeout
      | S fuel' =>
          s' ← for_transitions all_transitions current_marking
                 {| visited := visited s; queue := rest |};
          while_queue fuel' all_transitions s'
      end
  end.

Definition find_reachable_markings_bfs (fuel : nat) (start_marking : gset string)
    (all_transitions : table) : result (gset (gset string)) :=
  let initial_state := start_marking in
  while_queue fuel all_transitions
    {| visited := {[initial_state]}; queue := [initial_state] |}.

(** ** The search with an arbitrary worklist discipline

    The same loop, with the frontier's two operations abstracted and with two
    ghost logs: the markings taken from the frontier, in order, and the
    markings put on it, in order. *)

Record discipline : Type := Discipline {
  take : list (gset string) → option (gset string * list (gset string));
  put : gset string → list (gset string) → list (gset string);
}.

(** A discipline is complete when it loses and invents nothing: [take] hands
    out one pending marking and keeps the others, fails only on the empty
    frontier, and [put] adds exactly the given marking. *)
Record complete (d : discipline) : Prop := Complete {
  take_some q m q' : take d q = Some (m, q') → q ≡ₚ m :: q';
  take_none q : take d q = None → q = [];
  put_perm m q : put d m q ≡ₚ m :: q;
}.

(** [collections.deque] used with [popleft] and [append]. *)
Definition fifo : discipline :=
  {| take q := match q with [] => None | m :: q' => Some (m, q') end;
     put m q := q ++ [m] |}.

(** A stack: depth-first order. *)
Definition lifo : discipline :=
  {| take q := match q with [] => None | m :: q' => Some (m, q') end;
     put m q := m :: q |}.

Record wl_state : Type := WlState {
  wl_visited : gset (gset string);
  wl_pending : list (gset string);
  wl_expanded : list (gset string);
  wl_enqueued : list (gset string);
}.

Definition wl_body (d : discipline) (current_marking : marking)
    (t_info : t_info) (s : wl_state) : result wl_state :=
  pre_set ← getitem t_info "pre";
  post_set ← getitem t_info "post";
  if issubset pre_set current_marking then
    let next_marking := (current_marking ∖ pre_set) ∪ post_set in
    if bool_decide (next_marking ∈ wl_visited s) then Ok s
    else Ok {| wl_visited := {[next_marking]} ∪ wl_visited s;
               wl_pending := put d next_marking (wl_pending s);
               wl_expanded := wl_expanded s;
               wl_enqueued := wl_enqueued s ++ [next_marking] |}
  else Ok s.

Fixpoint wl_for (d : discipline) (items : table) (current_marking : marking)
    (s : wl_state) : result wl_state :=
  match items with
  | [] => Ok s
  | (_, t_info) :: items' =>
      s' ← wl_body d current_marking t_info s;
      wl_for d items' current_marking s'
  end.

(** The state after at most [k] iterations of the outer loop. *)
Fixpoint wl_after (d : discipline) (k : nat) (all_transitions : table)
    (s : wl_state) : result wl_state :=
  match k with
  | O => Ok s
  | S k' =>
      match take d (wl_pending s) with
      | None => Ok s
      | Some (current_marking, rest) =>
          s' ← wl_for d all_transitions current_marking
                 {| wl_visited := wl_visited s;
                    wl_pending := rest;
                    wl_expanded := wl_expanded s ++ [current_marking];
                    wl_enqueued := wl_enqueued s |};
          wl_after d k' all_transitions s'
      end
  end.

Definition wl_init (start_marking : gset string) : wl_state :=
  {| wl_visited := {[start_marking]};
     wl_pending := [start_marking];
     wl_expanded := [];
     wl_enqueued := [start_marking] |}.

(** The loop has returned when the frontier is empty. *)
Definition wl_finish (d : discipline) (r : result wl_state)
    : result (gset (gset string)) :=
  s ← r;
  match take d (wl_pending s) with
  | None => Ok (wl_visited s)
  | Some _ => Timeout
  end.

Definition wl_search (d : discipline) (fuel : nat) (start_marking : gset string)
    (all_transitions : table) : result (gset (gset string)) :=
  wl_finish d (wl_after d fuel all_transitions (wl_init start_marking)).

Definition erase (s : wl_state) : bfs_state :=
  {| visited := wl_visited s; queue := wl_pending s |}.

(** ** The engine over a heap of Python objects

    The arguments of [find_reachable_markings_bfs] are references to mutable
    objects: a [set], and a [dict] of [dict]s of [set]s.  Here the same code
    runs on a heap, so that what it does to the objects it is handed can be
    stated.  Frozensets are immutable and stay values. *)

Abbreviation loc := positive (only parsing).

Inductive object : Type :=
  | SetObj (s : gset string)
  | DictObj (items : list (string * positive))
  | VisitedObj (v : gset (gset string))
  | DequeObj (q : list (gset string)).

Global Instance object_eq_dec : EqDecision object.
Proof. solve_decision. Defined.

Abbreviation heap := (gmap positive object) (only parsing).

(** Heap-passing computations; the heap is kept when an exception is raised. *)
Definition M (A : Type) : Type := gmap positive object → result A * gmap positive object.

Global Instance M_ret : MRet M := λ A a h, (Ok a, h).
Global Instance M_bind : MBind M := λ A B f m h,
  match m h with
  | (Ok a, h') => f a h'
  | (Raise e, h') => (Raise e, h')
  | (Timeout, h') => (Timeout, h')
  end.

Definition raise {A : Type} (e : exn) : M A := λ h, (Raise e, h).
Definition timeout {A : Type} : M A := λ h, (Timeout, h).

Definition load (l : loc) : M object := λ h,
  match h !! l with
  | Some o => (Ok o, h)
  | None => (Raise TypeError, h)
  end.
Definition store (l : loc) (o : object) : M unit := λ h, (Ok (), <[l := o]> h).
Definition alloc (o : object) : M positive := λ h,
  let l := fresh (dom h) in (Ok l, <[l := o]> h).

(** Reading an object as the kind the code uses it as; Python raises
    [TypeError] or [AttributeError] on another kind. *)
Definition read_set (l : loc) : M (gset string) :=
  o ← load l; match o with SetObj s => mret s | _ => raise TypeError end.
Definition read_dict (l : loc) : M (list (string * positive)) :=
  o ← load l; match o with DictObj d => mret d | _ => raise TypeError end.
Definition read_visited (l : loc) : M (gset (gset string)) :=
  o ← load l; match o with VisitedObj v => mret v | _ => raise TypeError end.
Definition read_deque (l : loc) : M (list (gset string)) :=
  o ← load l; match o with DequeObj q => mret q | _ => raise TypeError end.

(** [d[key]] on a dictionary object. *)
Definition subscript (l : loc) (key : string) : M positive :=
  d ← read_dict l;
  match dict_getitem d key with
  | Ok l' => mret l'
  | Raise e => raise e
  | Timeout => timeout
  end.

(** [visited.add(m)] and [queue.append(m)]. *)
Definition visited_add (visited : loc) (m : marking) : M unit :=
  v ← read_visited visited; store visited (VisitedObj ({[m]} ∪ v)).
Definition deque_append (queue : loc) (m : marking) : M unit :=
  q ← read_deque queue; store queue (DequeObj (q ++ [m])).

Definition h_for_body (current_marking : marking) (t_info visited queue : loc)
    : M unit :=
  pre_set ← subscript t_info "pre";
  post_set ← subscript t_info "post";
  pre ← read_set pre_set;
  if issubset pre current_marking then
    let temp_marking := current_marking ∖ pre in
    post ← read_set post_set;
    let next_marking := temp_marking ∪ post in
    v ← read_visited visited;
    if bool_decide (next_marking ∈ v) then mret ()
    else
      _ ← visited_add visited next_marking;
      deque_append queue next_marking
  else mret ().

Fixpoint h_for_transitions (items : list (string * positive))
    (current_marking : marking) (visited queue : loc) : M unit :=
  match items with
  | [] => mret ()
  | (_, t_info) :: items' =>
      _ ← h_for_body current_marking t_info visited queue;
      h_for_transitions items' current_marking visited queue
  end.

Fixpoint h_while_queue (fuel : nat) (all_transitions visited queue : loc)
    : M unit :=
  q ← read_deque queue;
  match q with
  | [] => mret ()
  | current_marking :: rest =>
      match fuel with
      | O => timeout
      | S fuel' =>
          _ ← store queue (DequeObj rest);
          items ← read_dict all_transitions;
          _ ← h_for_transitions items current_marking visited queue;
          h_while_queue fuel' all_transitions visited queue
      end
  end.

(** The function returns a reference to its [visited] set. *)
Definition h_find_reachable_markings_bfs (fuel : nat)
    (start_marking all_transitions : loc) : M positive :=
  initial_state ← read_set start_marking;
  visited ← alloc (VisitedObj ∅);
  queue ← alloc (DequeObj []);
  _ ← visited_add visited initial_state;
  _ ← deque_append queue initial_state;
  _ ← h_while_queue fuel all_transitions visited queue;
  mret visited.

(** [keeps h0 m Q]: run from any heap that extends [h0], the computation [m]
    leaves every object of [h0] as it is, and a returned value satisfies
    [Q]. *)
Definition keeps (h0 : heap) {A : Type} (m : M A) (Q : A → Prop) : Prop :=
  ∀ h, h0 ⊆ h → h0 ⊆ (m h).2 ∧ ∀ a, (m h).1 = Ok a → Q a.

(** The heap holds the transition record [info] at [l]: a dictionary whose
    ['pre'] and ['post'] entries, when present, refer to sets. *)
Definition holds_field (h : heap) (d : list (string * positive))
    (info : t_info) (key : string) : Prop :=
  match dict_getitem d key, info !! key with
  | Ok l, Some s => h !! l = Some (SetObj s)
  | Raise _, None => True
  | _, _ => False
  end.

Definition holds_info (h : heap) (l : loc) (info : t_info) : Prop :=
  ∃ d, h !! l = Some (DictObj d) ∧
       holds_field h d info "pre" ∧ holds_field h d info "post".

Definition holds_table (h : heap) (l : loc) (T : table) : Prop :=
  ∃ items, h !! l = Some (DictObj items) ∧
           Forall2 (λ it ti, it.1 = ti.1 ∧ holds_info h it.2 ti.2) items T.

(** The two local objects of a run sit at [vl] and [ql], outside [h0]. *)
Record h_inv (h0 : heap) (vl ql : loc) (h : heap) (s : bfs_state) : Prop := HInv {
  h_frame : h0 ⊆ h;
  h_distinct : vl ≠ ql;
  h_fresh_v : h0 !! vl = None;
  h_fresh_q : h0 !! ql = None;
  h_visited : h !! vl = Some (VisitedObj (visited s));
  h_queue : h !! ql = Some (DequeObj (queue s));
}.

(** A heap run agrees with a run of the functional engine. *)
Definition agrees {A B : Type} (R : B → heap → A → Prop)
    (pure : result A) (out : result B * heap) : Prop :=
  match pure with
  | Ok a => ∃ b, out.1 = Ok b ∧ R b out.2 a
  | Raise e => out.1 = Raise e
  | Timeout => out.1 = Timeout
  end.

(** A small heap: the set [{p1}] at 1, scenario B's table at 2. *)
Definition heap_b : heap :=
  {[ 1%positive := SetObj {["p1"]};
     2%positive := DictObj [("t1", 3%positive); ("t2", 4%positive)];
     3%positive := DictObj [("pre", 5%positive); ("post", 6%positive)];
     4%positive := DictObj [("pre", 6%positive); ("post", 5%positive)];
     5%positive := SetObj {["p1"]};
     6%positive := SetObj {["p2"]} ]}.

(** ** Firing rule and reachability, stated independently of the loop *)

(** A transition table is well formed when every transition has a ['pre'] and
    a ['post'] entry. *)
Definition well_formed (T : table) : Prop :=
  Forall (λ ti, is_Some (ti.2 !! "pre") ∧ is_Some (ti.2 !! "post")) T.

(** Firing one transition record at a marking, when it is enabled. *)
Definition fire (info : t_info) (m : marking) : option (gset string) :=
  pre ← info !! "pre";
  post ← info !! "post";
  if bool_decide (pre ⊆ m) then Some ((m ∖ pre) ∪ post) else None.

(** Firing a sequence of transitions of the table, one after the other. *)
Fixpoint fire_sequence (seq : table) (m : marking) : option (gset string) :=
  match seq with
  | [] => Some m
  | (_, info) :: seq' => m' ← fire info m; fire_sequence seq' m'
  end.

Definition reachable (T : table) (start m : marking) : Prop :=
  ∃ seq : table, seq ⊆ T ∧ fire_sequence seq start = Some m.

(** One firing, as a relation. *)
Definition fires (T : table) (m m' : marking) : Prop :=
  ∃ ti, ti ∈ T ∧ fire ti.2 m = Some m'.

(** Places named by a transition record and by a whole net. *)
Definition pre_of (info : t_info) : gset string := default ∅ (info !! "pre").
Definition post_of (info : t_info) : gset string := default ∅ (info !! "post").

Definition all_posts (T : table) : gset string :=
  ⋃ ((λ ti, post_of ti.2) <$> T).

Definition net_places (start : gset string) (T : table) : gset string :=
  start ∪ ⋃ ((λ ti, pre_of ti.2 ∪ post_of ti.2) <$> T).

(** Invariant of the outer loop. *)
Record wl_inv (T : table) (start : gset string) (s : wl_state) : Prop := WlInv {
  inv_start : start ∈ wl_visited s;
  inv_sound m : m ∈ wl_visited s → rtc (fires T) start m;
  inv_nodup : NoDup (wl_expanded s ++ wl_pending s);
  inv_cover m : m ∈ wl_visited s ↔ m ∈ wl_expanded s ∨ m ∈ wl_pending s;
  inv_closed m m' : m ∈ wl_expanded s → fires T m m' → m' ∈ wl_visited s;
  inv_log : wl_enqueued s ≡ₚ wl_expanded s ++ wl_pending s;
}.

(** ** What the adapter is to produce *)

Definition is_place (net : PetriNet) (x : string) : Prop :=
  x ∈ (places net).*1.
Definition is_transition (net : PetriNet) (x : string) : Prop :=
  x ∈ (transitions net).*1.

(** An arc from a place to a transition, and one from a transition to a
    place. *)
Definition pt_arc (net : PetriNet) (a : Arc) : Prop :=
  is_place net (source a) ∧ is_transition net (target a).
Definition tp_arc (net : PetriNet) (a : Arc) : Prop :=
  is_transition net (source a) ∧ is_place net (target a).

Definition marked_place (net : PetriNet) (p : string) : Prop :=
  ∃ key pl, (key, pl) ∈ places net ∧ id pl = p ∧ (0 < initial_marking pl)%Z.

(** The entry of transition [t] holds the sources of the place→transition
    arcs into [t] and the targets of the arcs out of [t] that [feeds_post]
    selects. *)
Definition entry_of (net : PetriNet) (feeds_post : Arc → Prop)
    (seen : list Arc) (t : string) (info : t_info) : Prop :=
  ∃ pre post, info = mk_info pre post ∧
    (∀ p, p ∈ pre ↔
       ∃ a, a ∈ seen ∧ pt_arc net a ∧ source a = p ∧ target a = t) ∧
    (∀ p, p ∈ post ↔
       ∃ a, a ∈ seen ∧ feeds_post a ∧ source a = t ∧ target a = p).

Definition adapter_spec (feeds_post : PetriNet → Arc → Prop) (net : PetriNet)
    : Prop :=
  ∃ init tbl,
    convert_net_to_bfs_format net = Ok (init, tbl) ∧
    (∀ p, p ∈ init ↔ marked_place net p) ∧
    NoDup tbl.*1 ∧
    (∀ t, t ∈ tbl.*1 ↔ is_transition net t) ∧
    (∀ t info, (t, info) ∈ tbl → entry_of net (feeds_post net) (arcs net) t info).

(** The postcondition rule as the specification words it, and as the
    [if]/[elif] chain applies it. *)
Definition post_rule_spec (net : PetriNet) (a : Arc) : Prop := tp_arc net a.
Definition post_rule_code (net : PetriNet) (a : Arc) : Prop :=
  tp_arc net a ∧ ¬ pt_arc net a.

(** Modelled from the spec: a Net Model is a Petri net, a bipartite structure
    of places and transitions, so no identifier names both a place and a
    transition. *)
Definition bipartite (net : PetriNet) : Prop :=
  Forall (λ x, x ∉ (transitions net).*1) (places net).*1.

(** Loop invariant of [for arc in net.arcs]. *)
Record arcs_inv (net : PetriNet) (seen : list Arc) (d : table) : Prop := ArcsInv {
  arcs_nodup : NoDup d.*1;
  arcs_keys t : t ∈ d.*1 ↔ is_transition net t;
  arcs_entries t info :
    (t, info) ∈ d → entry_of net (post_rule_code net) seen t info;
}.

(** A net in which the identifiers [x] and [y] each name a place and a
    transition. *)
Definition overlap_net : PetriNet :=
  {| places := [("x", {| id := "x"; initial_marking := 1 |});
                ("y", {| id := "y"; initial_marking := 0 |})];
     transitions := [("x", {| transition_id := "x" |});
                     ("y", {| transition_id := "y" |})];
     arcs := [{| source := "x"; target := "y" |}] |}.

(** ** Scenario D *)

Definition scenario_d : table :=
  [("t1", mk_info {["p1"; "p2"]} {["p3"]})].

Definition scenario_b : table :=
  [("t1", mk_info {["p1"]} {["p2"]}); ("t2", mk_info {["p2"]} {["p1"]})].

(** Step C of the loop body: record a marking unless it was seen before. *)
Definition discover (next_marking : marking) (s : bfs_state) : bfs_state :=
  if decide (next_marking ∈ visited s) then s
  else {| visited := {[next_marking]} ∪ visited s;
          queue := queue s ++ [next_marking] |}.

(** ** The command line: module start-up and [main] *)

(** What the script prints, one entry per [print] call.  Numbers and markings
    stay values: [Total n] is the line
    [f"Total reachable markings found: {n}"] and [Numbered i x] the line
    [f"  {i}: {x}"]. *)
Inductive shown : Type :=
  | ShownSet (m : gset string)
  | ShownText (s : string).

Inductive line : Type :=
  | Text (s : string)
  | Total (n : nat)
  | Numbered (i : nat) (x : shown).

(** How the script ends: [main] returns, [sys.exit(code)] is called, an
    exception of the adapter or the engine escapes, a [print] raises because
    the standard output cannot take the line (as [UnicodeEncodeError] for a
    text its encoding cannot represent), or the engine is still running when
    the bound on its iterations is reached. *)
Inductive ending : Type :=
  | Returns
  | SystemExit (code : Z)
  | Uncaught (e : exn)
  | PrintRaised
  | Unfinished.

Global Instance shown_eq_dec : EqDecision shown.
Proof. solve_decision. Defined.
Global Instance line_eq_dec : EqDecision line.
Proof. solve_decision. Defined.
Global Instance ending_eq_dec : EqDecision ending.
Proof. solve_decision. Defined.

Definition newline : string := String (Ascii.ascii_of_nat 10) "".

(** Code that prints: from the lines printed so far to the lines printed
    after it, with a value or the way the script ended. *)
Definition io (A : Type) : Type := list line → list line * (ending + A).

Global Instance io_ret : MRet io := λ A a out, (out, inr a).
Global Instance io_bind : MBind io := λ A B f m out,
  match m out with
  | (out', inr a) => f a out'
  | (out', inl e) => (out', inl e)
  end.

Definition end_with {A : Type} (e : ending) : io A := λ out, (out, inl e).

(** The outcome of the whole script. *)
Definition run (m : io ()) : list line * ending :=
  match m [] with
  | (out, inr _) => (out, Returns)
  | (out, inl e) => (out, e)
  end.

(** The outcome of code that runs after [out] was printed, and a run's outcome
    placed after lines printed before it. *)
Definition finish (m : io ()) (out : list line) : list line * ending :=
  match m out with
  | (out', inr _) => (out', Returns)
  | (out', inl e) => (out', e)
  end.

Definition after (out : list line) (r : list line * ending)
    : list line * ending :=
  (out ++ r.1, r.2).

Section command_line.
(** Modelled from the spec: [pnml_parser.parse_pnml], which is not part of
    this source tree; for a path it yields a net, or raises
    [PNMLParserError] with a message. *)
Variable parse_pnml : string → PetriNet + string.

(** The order in which [enumerate(reachable_set)] visits the set, which
    Python leaves open. *)
Variable iteration_order : gset (gset string) → list (gset string).

(** Whether the standard output can take a line; [print] raises on a line it
    cannot take and writes nothing of it. *)
Variable stdout_accepts : line → bool.

Definition print (l : line) : io () := λ out,
  if stdout_accepts l then (out ++ [l], inr ()) else (out, inl PrintRaised).

(** The [for i, marking_fs in enumerate(reachable_set)] loop, from index
    [i]. *)
Fixpoint print_markings (i : nat) (todo : list (gset string)) : io () :=
  match todo with
  | [] => mret ()
  | marking_fs :: todo' =>
      let marking : gset string := marking_fs in
      _ ← print (Numbered (i + 1)
                   (if decide (marking = ∅) then ShownText "∅"
                    else ShownSet marking));
      print_markings (S i) todo'
  end.

(** [sys.argv] is [argv0 :: args]. *)
Definition main (fuel : nat) (argv0 : string) (args : list string) : io () :=
  if bool_decide (length (argv0 :: args) ≠ 2) then
    _ ← print (Text "Usage:");
    _ ← print (Text ("  python " +:+ argv0 +:+ " <path_to_pnml_file>"));
    end_with (SystemExit 1)
  else
    let pnml_file_path := default "" ((argv0 :: args) !! 1) in
    _ ← print (Text ("Parsing PNML file: " +:+ pnml_file_path +:+ "..."));
    match parse_pnml pnml_file_path with
    | inr e =>
        _ ← print (Text ("ERROR during parsing:" +:+ newline +:+ e));
        end_with (SystemExit 1)
    | inl parsed_net =>
        _ ← print (Text "Parsing complete.");
        match convert_net_to_bfs_format parsed_net with
        | Raise e => end_with (Uncaught e)
        | Timeout => end_with Unfinished
        | Ok (start_marking_set, transitions_dict) =>
            _ ← print (Text "Starting BFS to find reachable markings...");
            match find_reachable_markings_bfs fuel start_marking_set
                    transitions_dict with
            | Raise e => end_with (Uncaught e)
            | Timeout => end_with Unfinished
            | Ok reachable_set =>
                _ ← print (Text (newline +:+ "--- Task 2 Results ---"));
                _ ← print (Total (size reachable_set));
                _ ← print (Text "All Reachable Markings:");
                print_markings 0 (iteration_order reachable_set)
            end
        end
    end.

(** The module body when [pnml_parser] cannot be imported. *)
Definition import_failed : io () :=
  _ ← print (Text "Error: Could not find 'pnml_parser.py'.");
  _ ← print (Text "Make sure it's in the same directory as this script.");
  end_with (SystemExit 1).

(** Printing the lines [ls] in order and then ending with [e], as a list:
    the lines up to the first one the output cannot take. *)
Fixpoint emit (ls : list line) (e : ending) : list line * ending :=
  match ls with
  | [] => ([], e)
  | l :: ls' =>
      if stdout_accepts l then
        let '(out, e') := emit ls' e in (l :: out, e')
      else ([], PrintRaised)
  end.
End command_line.

(** The module body: the guarded import, then [main()].  [None] stands for a
    [pnml_parser] module that cannot be imported. *)
Definition script (pnml_parser : option (string → PetriNet + string))
    (iteration_order : gset (gset string) → list (gset string))
    (stdout_accepts : line → bool)
    (fuel : nat) (argv0 : string) (args : list string) : list line * ending :=
  match pnml_parser with
  | None => run (import_failed stdout_accepts)
  | Some parse_pnml =>
      run (main parse_pnml iteration_order stdout_accepts fuel argv0 args)
  end.

(** The lines of a listing of [ms], numbered from 1. *)
Definition numbered_lines (ms : list (gset string)) : list line :=
  imap (λ i m, Numbered (i + 1)
                 (if decide (m = ∅) then ShownText "∅" else ShownSet m)) ms.

(** The lines of a run that parses [path] and finds the set [V], listed in
    the order [ms]. *)
Definition report_lines (path : string) (V : gset (gset string))
    (ms : list (gset string)) : list line :=
  [Text ("Parsing PNML file: " +:+ path +:+ "...");
   Text "Parsing complete.";
   Text "Starting BFS to find reachable markings...";
   Text (newline +:+ "--- Task 2 Results ---");
   Total (size V);
   Text "All Reachable Markings:"] ++ numbered_lines ms.

(** A net whose only transition removes the token of [p1]: the empty marking
    is reachable. *)
Definition net_drain : PetriNet :=
  {| places := [("p1", {| id := "p1"; initial_marking := 1 |})];
     transitions := [("t1", {| transition_id := "t1" |})];
     arcs := [{| source := "p1"; target := "t1" |}] |}.

(** A standard output that cannot take the sign [∅], as an ASCII one. *)
Definition ascii_stdout (l : line) : bool :=
  match l with
  | Numbered _ (ShownText _) => false
  | _ => true
  end.

(** Scenario A as a net: [p1] marked, [p1 → t1 → p2]. *)
Definition net_a : PetriNet :=
  {| places := [("p1", {| id := "p1"; initial_marking := 1 |});
                ("p2", {| id := "p2"; initial_marking := 0 |})];
     transitions := [("t1", {| transition_id := "t1" |})];
     arcs := [{| source := "p1"; target := "t1" |};
              {| source := "t1"; target := "p2" |}] |}.

(** ** Basic facts *)

Lemma issubset_spec (a b : gset string) : issubset a b = true ↔ a ⊆ b.
Proof.
  unfold issubset. rewrite forallb_forall. split.
  - intros H p Hp. apply elem_of_elements, list_elem_of_In in Hp.
    apply H in Hp. by apply bool_decide_eq_true in Hp.
  - intros H p Hp. apply bool_decide_eq_true, H.
    by apply elem_of_elements, list_elem_of_In.
Qed.

Lemma mk_info_pre pre post : mk_info pre post !! "pre" = Some pre.
Proof. unfold mk_info. apply lookup_insert_eq. Qed.

Lemma mk_info_post pre post : mk_info pre post !! "post" = Some post.
Proof.
  unfold mk_info. rewrite lookup_insert_ne by done. apply lookup_singleton_eq.
Qed.

Lemma fire_Some info m m' :
  fire info m = Some m' ↔
  ∃ pre post, info !! "pre" = Some pre ∧ info !! "post" = Some post ∧
              pre ⊆ m ∧ m' = (m ∖ pre) ∪ post.
Proof.
  unfold fire. split.
  - destruct (info !! "pre") as [pre|]; [|done].
    destruct (info !! "post") as [post|]; [|done]. simpl.
    case_bool_decide; [|done]. intros [= <-]. by exists pre, post.
  - intros (pre & post & -> & -> & Hsub & ->). simpl.
    by rewrite bool_decide_eq_true_2.
Qed.

(** *** Dictionaries in insertion order *)

Lemma contains_spec {V} (d : list (string * V)) key :
  contains d key = true ↔ key ∈ d.*1.
Proof. apply bool_decide_eq_true. Qed.

Lemma setitem_keys {V} key (v : V) d :
  (setitem key v d).*1 = if decide (key ∈ d.*1) then d.*1 else d.*1 ++ [key].
Proof.
  induction d as [|[k v'] d IH]; [done|]. cbn [setitem].
  destruct (decide (k = key)) as [->|Hne]; rewrite !fmap_cons; cbn [fst].
  - rewrite decide_True; [done|left].
  - rewrite IH. destruct (decide (key ∈ d.*1)).
    + rewrite decide_True; [done|by right].
    + rewrite decide_False; [done|]. intros [?|?]%elem_of_cons; congruence.
Qed.

Lemma setitem_NoDup {V} key (v : V) d : NoDup d.*1 → NoDup (setitem key v d).*1.
Proof.
  intros Hnd. rewrite setitem_keys. case_decide; [done|].
  apply NoDup_app. split_and!; [done| |apply NoDup_singleton].
  intros x Hx ->%list_elem_of_singleton. done.
Qed.

Lemma elem_of_setitem_keys {V} key (v : V) d k :
  k ∈ (setitem key v d).*1 ↔ k = key ∨ k ∈ d.*1.
Proof.
  rewrite setitem_keys. case_decide.
  - split; [by right|]. by intros [->|].
  - rewrite elem_of_app, list_elem_of_singleton. tauto.
Qed.

Lemma elem_of_setitem {V} key (v : V) d k w :
  NoDup d.*1 →
  (k, w) ∈ setitem key v d ↔ (k = key ∧ w = v) ∨ (k ≠ key ∧ (k, w) ∈ d).
Proof.
  induction d as [|[k0 v0] d IH]; simpl; intros Hnd.
  - rewrite list_elem_of_singleton. split.
    + intros [= -> ->]. by left.
    + intros [[-> ->]|[_ []%elem_of_nil]]. done.
  - apply NoDup_cons in Hnd as [Hk0 Hnd].
    destruct (decide (k0 = key)) as [->|Hne].
    + rewrite !elem_of_cons. split.
      * intros [[= -> ->]|Hin]; [by left|]. right. split; [|by right].
        intros ->. apply Hk0. apply list_elem_of_fmap. by exists (key, w).
      * intros [[-> ->]|[Hk [[= ? ?]|Hin]]]; [by left|done|by right].
    + rewrite !elem_of_cons, IH by done. split.
      * intros [[= -> ->]|[?|[? ?]]]; [right|by left|right]; split; auto.
      * intros [[-> ->]|[Hk [[= -> ->]|Hin]]]; auto.
  Qed.

Lemma dict_getitem_Ok {V} (d : list (string * V)) key v :
  dict_getitem d key = Ok v → (key, v) ∈ d.
Proof.
  induction d as [|[k v'] d IH]; simpl; [done|].
  case_decide; [intros [= <-]; subst; left|]. intros ?. right. auto.
Qed.

Lemma dict_getitem_total {V} (d : list (string * V)) key :
  key ∈ d.*1 → ∃ v, dict_getitem d key = Ok v.
Proof.
  induction d as [|[k v'] d IH]; simpl; [by intros ?%elem_of_nil|].
  case_decide; [by eauto|]. intros [?|?]%elem_of_cons; [congruence|auto].
Qed.

(** *** The adapter *)

Lemma mk_info_inj pre post pre' post' :
  mk_info pre post = mk_info pre' post' → pre = pre' ∧ post = post'.
Proof.
  intros Heq. split.
  - pose proof (mk_info_pre pre post) as H. rewrite Heq, mk_info_pre in H.
    congruence.
  - pose proof (mk_info_post pre post) as H. rewrite Heq, mk_info_post in H.
    congruence.
Qed.

Lemma mk_info_insert_pre pre post pre' :
  <["pre" := pre']> (mk_info pre post) = mk_info pre' post.
Proof. unfold mk_info. apply insert_insert_eq. Qed.

Lemma mk_info_insert_post pre post post' :
  <["post" := post']> (mk_info pre post) = mk_info pre post'.
Proof.
  unfold mk_info. rewrite insert_insert_ne by done.
  by rewrite insert_singleton_eq.
Qed.

Lemma initial_table_spec (keys : list string) :
  let d := foldl (λ d t_id, setitem t_id (mk_info ∅ ∅) d) [] keys in
  NoDup d.*1 ∧ (∀ t, t ∈ d.*1 ↔ t ∈ keys) ∧
  (∀ t info, (t, info) ∈ d → info = mk_info ∅ ∅).
Proof.
  induction keys as [|k keys IH] using rev_ind; simpl.
  - split_and!; [constructor|done|]. by intros t info ?%elem_of_nil.
  - rewrite foldl_app. simpl. destruct IH as (Hnd & Hkeys & Hent). split_and!.
    + by apply setitem_NoDup.
    + intros t. rewrite elem_of_setitem_keys, elem_of_app, Hkeys,
        list_elem_of_singleton. tauto.
    + intros t info [[_ ->]|[_ Hin]]%elem_of_setitem; eauto.
Qed.

Lemma exists_snoc {A} (P : A → Prop) (seen : list A) (a : A) :
  (∃ x, x ∈ seen ++ [a] ∧ P x) ↔ (∃ x, x ∈ seen ∧ P x) ∨ P a.
Proof.
  split.
  - intros (x & [Hx| ->%list_elem_of_singleton]%elem_of_app & HP); eauto.
  - intros [(x & Hx & HP)|HP].
    + exists x. split; [|done]. apply elem_of_app. by left.
    + exists a. split; [|done]. apply elem_of_app. right. left.
Qed.

Section entries.
Context (net : PetriNet) (F : Arc → Prop) (seen : list Arc) (a : Arc).

Lemma entry_keep t info :
  entry_of net F seen t info →
  ¬ (pt_arc net a ∧ target a = t) → ¬ (F a ∧ source a = t) →
  entry_of net F (seen ++ [a]) t info.
Proof.
  intros (pre & post & -> & Hpre & Hpost) Hnpre Hnpost.
  exists pre, post. split; [done|]. split; intros p.
  - rewrite exists_snoc, (Hpre p). tauto.
  - rewrite exists_snoc, (Hpost p). tauto.
Qed.

Lemma entry_add_pre pre post :
  entry_of net F seen (target a) (mk_info pre post) →
  pt_arc net a → ¬ F a →
  entry_of net F (seen ++ [a]) (target a)
    (mk_info ({[source a]} ∪ pre) post).
Proof.
  intros (pre0 & post0 & [<- <-]%mk_info_inj & Hpre & Hpost) Hpt HnF.
  exists ({[source a]} ∪ pre), post. split; [done|]. split; intros p.
  - rewrite exists_snoc, elem_of_union, elem_of_singleton, (Hpre p).
    split; [intros [->|?]; auto|]. intros [?|(_ & <- & _)]; auto.
  - rewrite exists_snoc, (Hpost p). tauto.
Qed.

Lemma entry_add_post pre post :
  entry_of net F seen (source a) (mk_info pre post) →
  F a → ¬ pt_arc net a →
  entry_of net F (seen ++ [a]) (source a)
    (mk_info pre ({[target a]} ∪ post)).
Proof.
  intros (pre0 & post0 & [<- <-]%mk_info_inj & Hpre & Hpost) HF Hnpt.
  exists pre, ({[target a]} ∪ post). split; [done|]. split; intros p.
  - rewrite exists_snoc, (Hpre p). tauto.
  - rewrite exists_snoc, elem_of_union, elem_of_singleton, (Hpost p).
    split; [intros [->|?]; auto|]. intros [?|(_ & _ & <-)]; auto.
Qed.
End entries.

Lemma add_place_pre d t p pre post :
  dict_getitem d t = Ok (mk_info pre post) →
  add_place "pre" t p d = Ok (setitem t (mk_info ({[p]} ∪ pre) post) d).
Proof.
  intros Hget. unfold add_place, getitem. rewrite Hget. simpl.
  rewrite mk_info_pre. simpl. by rewrite mk_info_insert_pre.
Qed.

Lemma add_place_post d t p pre post :
  dict_getitem d t = Ok (mk_info pre post) →
  add_place "post" t p d = Ok (setitem t (mk_info pre ({[p]} ∪ post)) d).
Proof.
  intros Hget. unfold add_place, getitem. rewrite Hget. simpl.
  rewrite mk_info_post. simpl. by rewrite mk_info_insert_post.
Qed.

Lemma arcs_inv_setitem net seen a d t info :
  arcs_inv net seen d → t ∈ d.*1 →
  entry_of net (post_rule_code net) (seen ++ [a]) t info →
  (∀ t' info', t' ≠ t → (t', info') ∈ d →
     entry_of net (post_rule_code net) (seen ++ [a]) t' info') →
  arcs_inv net (seen ++ [a]) (setitem t info d).
Proof.
  intros [Hnd Hkeys Hent] Ht Hnew Hold. split.
  - by apply setitem_NoDup.
  - intros t'. rewrite elem_of_setitem_keys, <-Hkeys. split; [|by auto].
    by intros [->|].
  - intros t' info' [[-> ->]|[Hne Hin]]%elem_of_setitem; [done| |done].
    by apply Hold.
Qed.

Lemma arc_body_inv net seen a d :
  arcs_inv net seen d →
  ∃ d', arc_body net a d = Ok d' ∧ arcs_inv net (seen ++ [a]) d'.
Proof.
  intros Hinv. pose proof Hinv as [Hnd Hkeys Hent]. unfold arc_body.
  destruct (contains (places net) (source a) &&
            contains (transitions net) (target a)) eqn:Hpt.
  - apply andb_true_iff in Hpt as [Hs%contains_spec Ht%contains_spec].
    assert (Hpta : pt_arc net a) by done.
    assert (Hnpost : ¬ post_rule_code net a) by (intros [_ ?]; done).
    destruct (dict_getitem_total d (target a)) as [info Hget];
      [by apply Hkeys|].
    pose proof (dict_getitem_Ok _ _ _ Hget) as Hin.
    destruct (Hent _ _ Hin) as (pre & post & -> & Hpre & Hpost).
    rewrite (add_place_pre d _ _ pre post) by done.
    eexists. split; [done|]. apply arcs_inv_setitem; [done|by apply Hkeys|..].
    + apply entry_add_pre; [|done..]. by apply Hent.
    + intros t' info' Hne Hin'. apply entry_keep; [by apply Hent|..].
      * intros [_ ?]. congruence.
      * intros [? _]. done.
  - assert (Hnpt : ¬ pt_arc net a).
    { intros [Hs%contains_spec Ht%contains_spec]. by rewrite Hs, Ht in Hpt. }
    destruct (contains (transitions net) (source a) &&
              contains (places net) (target a)) eqn:Htp.
    + apply andb_true_iff in Htp as [Hs%contains_spec Ht%contains_spec].
      assert (Htpa : post_rule_code net a) by done.
      destruct (dict_getitem_total d (source a)) as [info Hget];
        [by apply Hkeys|].
      pose proof (dict_getitem_Ok _ _ _ Hget) as Hin.
      destruct (Hent _ _ Hin) as (pre & post & -> & Hpre & Hpost).
      rewrite (add_place_post d _ _ pre post) by done.
      eexists. split; [done|].
      apply arcs_inv_setitem; [done|by apply Hkeys|..].
      * apply entry_add_post; [|done..]. by apply Hent.
      * intros t' info' Hne Hin'. apply entry_keep; [by apply Hent|..].
        -- intros [? _]. done.
        -- intros [_ ?]. congruence.
    + assert (Hntp : ¬ post_rule_code net a).
      { intros [[Hs%contains_spec Ht%contains_spec] _].
        by rewrite Hs, Ht in Htp. }
      eexists. split; [done|]. split; [done..|].
      intros t info Hin. apply entry_keep; [by apply Hent|..].
      * intros [? _]. done.
      * intros [? _]. done.
Qed.

Lemma for_arcs_inv net seen todo d :
  arcs_inv net seen d →
  ∃ d', for_arcs net todo d = Ok d' ∧ arcs_inv net (seen ++ todo) d'.
Proof.
  revert seen d. induction todo as [|a todo IH]; intros seen d Hinv; simpl.
  - exists d. by rewrite app_nil_r.
  - destruct (arc_body_inv net seen a d Hinv) as (d1 & -> & Hinv1). simpl.
    destruct (IH _ _ Hinv1) as (d' & Hd' & Hinv').
    exists d'. split; [done|]. by rewrite <-app_assoc in Hinv'.
Qed.

Lemma initial_marking_spec net p :
  p ∈ (list_to_set
         (id <$> filter (λ pl, (0 < initial_marking pl)%Z) (places net).*2)
       : gset string)
  ↔ marked_place net p.
Proof.
  rewrite elem_of_list_to_set, list_elem_of_fmap. unfold marked_place. split.
  - intros (pl & -> & [Hpos ([key pl'] & -> & Hin)%list_elem_of_fmap]%list_elem_of_filter).
    by exists key, pl'.
  - intros (key & pl & Hin & <- & Hpos). exists pl. split; [done|].
    apply list_elem_of_filter. split; [done|].
    apply list_elem_of_fmap. by exists (key, pl).
Qed.

(** *** The inner loop *)

Section inner_loop.
Context (d : discipline) (Hd : complete d).

Lemma wl_body_Ok m info s s' :
  wl_body d m info s = Ok s' →
  (is_Some (info !! "pre") ∧ is_Some (info !! "post")) ∧
  match fire info m with
  | Some x =>
      if decide (x ∈ wl_visited s) then s' = s
      else s' = {| wl_visited := {[x]} ∪ wl_visited s;
                   wl_pending := put d x (wl_pending s);
                   wl_expanded := wl_expanded s;
                   wl_enqueued := wl_enqueued s ++ [x] |}
  | None => s' = s
  end.
Proof.
  unfold wl_body, fire, getitem.
  destruct (info !! "pre") as [pre|]; [|done].
  destruct (info !! "post") as [post|]; [|done]. simpl.
  intros H. split; [by eauto|].
  destruct (issubset pre m) eqn:Hsub.
  - apply issubset_spec in Hsub. rewrite bool_decide_eq_true_2 by done.
    case_bool_decide; case_decide; try done; congruence.
  - rewrite bool_decide_eq_false_2; [congruence|].
    intros Hs. apply issubset_spec in Hs. congruence.
Qed.

Lemma wl_body_total m info s :
  is_Some (info !! "pre") → is_Some (info !! "post") →
  ∃ s', wl_body d m info s = Ok s'.
Proof.
  intros [pre Hpre] [post Hpost]. unfold wl_body, getitem.
  rewrite Hpre, Hpost. simpl.
  destruct (issubset pre m); [case_bool_decide|]; eauto.
Qed.

(** What one pass over the transitions does: it appends to the frontier,
    once each, the successors of [m] that were not visited before. *)
Lemma wl_for_Ok items m s s' :
  wl_for d items m s = Ok s' →
  well_formed items ∧
  wl_expanded s' = wl_expanded s ∧
  ∃ new,
    NoDup new ∧
    (∀ x, x ∈ new ↔ (x ∉ wl_visited s) ∧ fires items m x) ∧
    wl_visited s' = wl_visited s ∪ list_to_set new ∧
    wl_pending s' ≡ₚ wl_pending s ++ new ∧
    wl_enqueued s' = wl_enqueued s ++ new.
Proof.
  revert s. induction items as [|[t info] items IH]; intros s; simpl.
  - intros [= <-]. split; [constructor|]. split; [done|].
    exists []. rewrite !app_nil_r. split_and!; try done.
    + constructor.
    + intros x. split; [by intros ?%elem_of_nil|].
      intros [_ (ti & []%elem_of_nil & _)].
    + set_solver.
  - destruct (wl_body d m info s) as [s1| |] eqn:Hbody; simpl; try done.
    intros Hfor. apply wl_body_Ok in Hbody as [Hwf Hs1].
    apply IH in Hfor as (Hwfs & Hexp & new & Hnd & Hnew & Hvis & Hpend & Henq).
    split; [by constructor|].
    assert (Hfires : ∀ x, fires ((t, info) :: items) m x ↔
              fire info m = Some x ∨ fires items m x).
    { intros x. unfold fires. split.
      - intros (ti & Hin & Hf). apply elem_of_cons in Hin as [->|Hin]; eauto.
      - intros [Hf|(ti & Hin & Hf)].
        + exists (t, info). split; [left|done].
        + exists ti. split; [by right|done]. }
    destruct (fire info m) as [x0|] eqn:Hfire; [case_decide|]; subst s1;
      simpl in *.
    + split; [done|]. exists new. split_and!; try done.
      intros x. rewrite Hnew, Hfires. split; [naive_solver|].
      intros [Hx [[= ->]|?]]; done.
    + split; [done|]. exists (x0 :: new). split_and!.
      * constructor; [|done]. rewrite Hnew. set_solver.
      * intros x. rewrite elem_of_cons, Hnew, Hfires.
        split.
        -- intros [->|[Hx ?]]; [by eauto|]. split; [set_solver|by eauto].
        -- intros [Hx [[= ->]|?]]; [by left|].
           destruct (decide (x = x0)) as [->|]; [by left|].
           right. split; [set_solver|done].
      * rewrite Hvis. set_solver.
      * rewrite Hpend, (put_perm d Hd). simpl. apply Permutation_middle.
      * by rewrite Henq, <-app_assoc.
    + split; [done|]. exists new. split_and!; try done.
      intros x. rewrite Hnew, Hfires. naive_solver.
Qed.

Lemma wl_for_total items m s :
  well_formed items → ∃ s', wl_for d items m s = Ok s'.
Proof.
  intros Hwf. revert s. induction Hwf as [|[t info] items [Hpre Hpost] _ IH];
    intros s; simpl; [by eauto|].
  destruct (wl_body_total m info s Hpre Hpost) as [s1 ->]. simpl. apply IH.
Qed.
End inner_loop.

(** *** Counting the subsets of a finite set *)

Lemma size_set_map_inj (f : gset string → gset string) (X : gset (gset string)) :
  (∀ a b, a ∈ X → b ∈ X → f a = f b → a = b) →
  size (set_map f X : gset (gset string)) = size X.
Proof.
  intros Hinj. unfold set_map. rewrite size_list_to_set.
  - by rewrite length_fmap.
  - apply NoDup_fmap_2_strong; [|apply NoDup_elements].
    intros a b Ha Hb. apply Hinj; by apply elem_of_elements.
Qed.

Lemma size_subsets_le (U : gset string) (V : gset (gset string)) :
  (∀ m, m ∈ V → m ⊆ U) → size V ≤ 2 ^ size U.
Proof.
  revert V. induction U as [|x U Hx IH] using set_ind_L; intros V HV.
  - rewrite size_empty. simpl.
    transitivity (size ({[ ∅ ]} : gset (gset string))).
    + apply subseteq_size. intros m Hm. apply HV in Hm.
      apply elem_of_singleton. set_solver.
    + by rewrite size_singleton.
  - rewrite size_union, size_singleton by set_solver.
    change (2 ^ (1 + size U)) with (2 * 2 ^ size U).
    pose (V0 := filter (λ m, x ∉ m) V).
    pose (V1 := filter (λ m, x ∈ m) V).
    assert (size V = size V0 + size V1) as ->.
    { rewrite <-size_union.
      - f_equal. apply set_eq. intros m. unfold V0, V1.
        rewrite elem_of_union, !elem_of_filter.
        destruct (decide (x ∈ m)); naive_solver.
      - intros m. unfold V0, V1. rewrite !elem_of_filter. naive_solver. }
    assert (size V0 ≤ 2 ^ size U).
    { apply IH. intros m [Hm Hin]%elem_of_filter. apply HV in Hin. set_solver. }
    assert (size V1 ≤ 2 ^ size U).
    { rewrite <-(size_set_map_inj (λ m, m ∖ {[x]})).
      - apply IH. intros m (m0 & -> & [Hm Hin]%elem_of_filter)%elem_of_map.
        apply HV in Hin. set_solver.
      - intros a b [Ha _]%elem_of_filter [Hb _]%elem_of_filter Hab.
        apply set_eq. intros y. destruct (decide (y = x)) as [->|]; [done|].
        assert (y ∈ a ∖ {[x]} ↔ y ∈ b ∖ {[x]}) by (by rewrite Hab).
        set_solver. }
    lia.
Qed.

(** *** Markings stay inside the places that can hold a token *)

Lemma fires_posts T m m' : fires T m m' → m' ⊆ m ∪ all_posts T.
Proof.
  intros ([t info] & Hin & (pre & post & Hpre & Hpost & Hsub & ->)%fire_Some).
  assert (post ⊆ all_posts T); [|set_solver].
  intros p Hp. unfold all_posts. apply elem_of_union_list.
  exists post. split; [|done]. apply list_elem_of_fmap.
  exists (t, info). split; [|done]. unfold post_of. simpl in *. by rewrite Hpost.
Qed.

Lemma rtc_fires_posts T start m :
  rtc (fires T) start m → m ⊆ start ∪ all_posts T.
Proof.
  induction 1 as [|m1 m2 m3 Hf _ IH]; [set_solver|].
  apply fires_posts in Hf. set_solver.
Qed.

Lemma all_posts_net_places start T : start ∪ all_posts T ⊆ net_places start T.
Proof.
  unfold net_places, all_posts. apply union_mono_l.
  intros p (X & (ti & -> & Hti)%list_elem_of_fmap & Hp)%elem_of_union_list.
  apply elem_of_union_list. exists (pre_of ti.2 ∪ post_of ti.2).
  split; [|set_solver]. apply list_elem_of_fmap. by exists ti.
Qed.

(** *** The outer loop *)

Lemma wl_inv_init T start : wl_inv T start (wl_init start).
Proof.
  split; simpl.
  - set_solver.
  - intros m ->%elem_of_singleton. constructor.
  - apply NoDup_singleton.
  - intros m. rewrite elem_of_singleton, list_elem_of_singleton.
    split; [by right|]. intros [[]%elem_of_nil|]; done.
  - intros m m' []%elem_of_nil.
  - done.
Qed.

Lemma wl_inv_size T start s :
  wl_inv T start s →
  size (wl_visited s) = length (wl_expanded s) + length (wl_pending s).
Proof.
  intros Hinv.
  rewrite <-length_app, <-(size_list_to_set (C:=gset (gset string)))
    by apply Hinv.
  f_equal. apply set_eq. intros m.
  by rewrite (inv_cover _ _ _ Hinv), elem_of_list_to_set, elem_of_app.
Qed.

Lemma wl_inv_bound T start s :
  wl_inv T start s → size (wl_visited s) ≤ 2 ^ size (net_places start T).
Proof.
  intros Hinv. apply size_subsets_le. intros m Hm.
  apply (inv_sound _ _ _ Hinv), rtc_fires_posts in Hm.
  pose proof (all_posts_net_places start T). set_solver.
Qed.

Section outer_loop.
Context (d : discipline) (Hd : complete d).

Lemma wl_inv_step T start s m rest s' :
  wl_inv T start s →
  take d (wl_pending s) = Some (m, rest) →
  wl_for d T m {| wl_visited := wl_visited s;
                  wl_pending := rest;
                  wl_expanded := wl_expanded s ++ [m];
                  wl_enqueued := wl_enqueued s |} = Ok s' →
  wl_inv T start s'.
Proof.
  intros [Hstart Hsound Hnd Hcover Hclosed Hlog] Htake Hfor.
  apply (take_some d Hd) in Htake.
  apply (wl_for_Ok d Hd) in Hfor
    as (_ & Hexp & new & Hndnew & Hnew & Hvis & Hpend & Henq).
  simpl in *.
  assert (Hm : m ∈ wl_visited s).
  { apply Hcover. right. rewrite Htake. left. }
  assert (Hall : (wl_expanded s ++ [m]) ++ wl_pending s'
                 ≡ₚ (wl_expanded s ++ wl_pending s) ++ new).
  { rewrite Hpend, Htake, <-!app_assoc. simpl. done. }
  split.
  - rewrite Hvis. set_solver.
  - intros x. rewrite Hvis, elem_of_union, elem_of_list_to_set.
    intros [Hx|[_ Hx]%Hnew]; [by auto|]. eapply rtc_r; eauto.
  - rewrite Hexp, Hall. apply NoDup_app. split_and!; [done| |done].
    intros x Hx%elem_of_app%Hcover. rewrite Hnew. tauto.
  - intros x. rewrite <-elem_of_app, Hexp, Hall, elem_of_app, elem_of_app.
    rewrite Hvis, elem_of_union, elem_of_list_to_set, Hcover. done.
  - intros x x'. rewrite Hexp, Hvis, elem_of_app, list_elem_of_singleton.
    intros [Hx| ->] Hf; [by apply elem_of_union_l; eauto|].
    destruct (decide (x' ∈ wl_visited s)); [set_solver|].
    apply elem_of_union_r, elem_of_list_to_set, Hnew. done.
  - by rewrite Henq, Hexp, Hall, Hlog.
Qed.

Lemma wl_for_not_Timeout items m s : wl_for d items m s ≠ Timeout.
Proof.
  revert s. induction items as [|[t info] items IH]; intros s; simpl; [done|].
  destruct (wl_body d m info s) as [s1|e|] eqn:Hbody; simpl; [done|done|].
  unfold wl_body, getitem in Hbody. exfalso.
  destruct (info !! "pre"); simpl in *; [|done].
  destruct (info !! "post"); simpl in *; [|done].
  destruct (issubset _ _); [case_bool_decide|]; done.
Qed.

Lemma wl_after_inv T start k s s' :
  wl_inv T start s → wl_after d k T s = Ok s' → wl_inv T start s'.
Proof.
  revert s. induction k as [|k IH]; intros s Hinv; simpl.
  - by intros [= <-].
  - destruct (take d (wl_pending s)) as [[m rest]|] eqn:Htake;
      [|by intros [= <-]].
    destruct (wl_for _ _ _ _) as [s1| |] eqn:Hfor; simpl; try done.
    apply IH. by eapply wl_inv_step.
Qed.

(** The loop returns within [B - length expanded] iterations, where [B]
    bounds the number of markings. *)
Lemma wl_after_finishes T start k s :
  wl_inv T start s →
  2 ^ size (net_places start T) ≤ k + length (wl_expanded s) →
  wl_finish d (wl_after d k T s) ≠ Timeout.
Proof.
  revert s. induction k as [|k IH]; intros s Hinv Hk; simpl.
  - destruct (take d (wl_pending s)) as [[m rest]|] eqn:Htake; [|done].
    apply (take_some d Hd) in Htake. exfalso.
    pose proof (wl_inv_bound _ _ _ Hinv) as Hb.
    rewrite (wl_inv_size _ _ _ Hinv), Htake in Hb. simpl in *. lia.
  - destruct (take d (wl_pending s)) as [[m rest]|] eqn:Htake; simpl.
    2:{ by rewrite Htake. }
    destruct (wl_for _ _ _ _) as [s1|e|] eqn:Hfor; simpl; [|done|].
    + apply IH; [by eapply wl_inv_step|].
      apply (wl_for_Ok d Hd) in Hfor as (_ & -> & _). simpl.
      rewrite length_app. simpl. lia.
    + by apply wl_for_not_Timeout in Hfor.
Qed.

(** When the frontier is empty the visited set is closed under firing. *)
Lemma wl_inv_done T start s m :
  wl_inv T start s → wl_pending s = [] →
  m ∈ wl_visited s ↔ rtc (fires T) start m.
Proof.
  intros Hinv Hnil. split; [apply Hinv|].
  revert m. apply rtc_ind_r; [apply Hinv|]. intros m1 m2 Hrtc Hf IH.
  eapply (inv_closed _ _ _ Hinv); [|done].
  apply (inv_cover _ _ _ Hinv) in IH as [?|Hp]; [done|].
  rewrite Hnil in Hp. by apply elem_of_nil in Hp.
Qed.
End outer_loop.

(** *** The engine is the worklist search with the FIFO discipline *)

Lemma fifo_complete : complete fifo.
Proof.
  split; simpl.
  - intros [|m0 q] m q'; [done|]. by intros [= -> ->].
  - by intros [|m0 q].
  - intros m q. by rewrite Permutation_app_comm.
Qed.

Lemma lifo_complete : complete lifo.
Proof.
  split; simpl.
  - intros [|m0 q] m q'; [done|]. by intros [= -> ->].
  - by intros [|m0 q].
  - done.
Qed.

Lemma for_body_erase m info s :
  for_body m info (erase s) = erase <$> wl_body fifo m info s.
Proof.
  unfold for_body, wl_body.
  destruct (getitem info "pre") as [pre| |]; simpl; [|done..].
  destruct (getitem info "post") as [post| |]; simpl; [|done..].
  destruct (issubset pre m); [|done]. by case_bool_decide.
Qed.

Lemma for_transitions_erase items m s :
  for_transitions items m (erase s) = erase <$> wl_for fifo items m s.
Proof.
  revert s. induction items as [|[t info] items IH]; intros s; simpl; [done|].
  rewrite for_body_erase.
  destruct (wl_body fifo m info s) as [s1| |]; simpl; [|done..]. apply IH.
Qed.

Lemma while_queue_erase fuel T s :
  while_queue fuel T (erase s) = wl_finish fifo (wl_after fifo fuel T s).
Proof.
  revert s. induction fuel as [|fuel IH]; intros s; simpl.
  - by destruct (wl_pending s).
  - destruct (wl_pending s) as [|m rest] eqn:Hp; simpl; [by rewrite Hp|].
    pose (s0 := {| wl_visited := wl_visited s; wl_pending := rest;
                   wl_expanded := wl_expanded s ++ [m];
                   wl_enqueued := wl_enqueued s |}).
    change (BfsState (wl_visited s) rest) with (erase s0).
    rewrite for_transitions_erase. fold s0.
    destruct (wl_for fifo T m s0) as [s1| |]; simpl; [|done..]. apply IH.
Qed.

Lemma bfs_is_fifo_search fuel start T :
  find_reachable_markings_bfs fuel start T = wl_search fifo fuel start T.
Proof. apply (while_queue_erase fuel T (wl_init start)). Qed.

Lemma while_queue_mono fuel fuel' T s V :
  while_queue fuel T s = Ok V → fuel ≤ fuel' → while_queue fuel' T s = Ok V.
Proof.
  revert fuel' s. induction fuel as [|fuel IH]; intros fuel' s; simpl.
  - destruct (queue s) eqn:Hq; [|done]. intros [= <-] _.
    destruct fuel'; simpl; by rewrite Hq.
  - destruct (queue s) as [|m rest] eqn:Hq.
    + intros [= <-] _. destruct fuel'; simpl; by rewrite Hq.
    + destruct fuel' as [|fuel']; [lia|]. simpl. rewrite Hq.
      destruct (for_transitions _ _ _) as [s1| |]; simpl; [|done..].
      intros H ?. apply IH; [done|lia].
Qed.

(** *** Firing sequences and the firing relation *)

Lemma reachable_rtc T start m : reachable T start m ↔ rtc (fires T) start m.
Proof.
  split.
  - intros (seq & Hsub & Hseq). revert start Hsub Hseq.
    induction seq as [|[t info] seq IH]; intros start Hsub; simpl.
    + by intros [= ->].
    + destruct (fire info start) as [m1|] eqn:Hfire; simpl; [|done].
      intros Hseq. eapply rtc_l.
      * exists (t, info). split; [|done]. apply Hsub. left.
      * apply IH; [|done]. intros ti Hti. apply Hsub. by right.
  - induction 1 as [m|m1 m2 m3 (ti & Hin & Hf) _ (seq & Hsub & Hseq)].
    + exists []. split; [|done]. by intros x ?%elem_of_nil.
    + exists (ti :: seq). split.
      * intros x [->|?]%elem_of_cons; auto.
      * destruct ti as [t info]. simpl in *. by rewrite Hf.
Qed.

Lemma reachable_perm T1 T2 start m :
  T1 ≡ₚ T2 → reachable T1 start m → reachable T2 start m.
Proof.
  intros HT (seq & Hsub & Hseq). exists seq. split; [|done].
  intros ti Hti. rewrite <-HT. by apply Hsub.
Qed.

(** *** What a finished search returns *)

Section search.
Context (d : discipline) (Hd : complete d).

Lemma wl_search_Ok fuel start T V :
  wl_search d fuel start T = Ok V →
  ∃ s, wl_after d fuel T (wl_init start) = Ok s ∧ wl_pending s = [] ∧
       wl_visited s = V ∧ wl_inv T start s.
Proof.
  unfold wl_search, wl_finish.
  destruct (wl_after _ _ _ _) as [s| |] eqn:Hafter; simpl; [|done..].
  destruct (take d (wl_pending s)) eqn:Htake; [done|]. intros [= <-].
  exists s. split_and!; [done| |done|].
  - by apply (take_none d Hd).
  - eapply wl_after_inv; [done|apply wl_inv_init|done].
Qed.

Lemma wl_search_exact fuel start T V m :
  wl_search d fuel start T = Ok V → m ∈ V ↔ reachable T start m.
Proof.
  intros (s & _ & Hnil & <- & Hinv)%wl_search_Ok.
  rewrite reachable_rtc. by apply wl_inv_done.
Qed.

Lemma wl_after_wf T k s :
  well_formed T → ∃ s', wl_after d k T s = Ok s'.
Proof.
  intros Hwf. revert s. induction k as [|k IH]; intros s; simpl; [by eauto|].
  destruct (take d (wl_pending s)) as [[m rest]|]; [|by eauto].
  edestruct (wl_for_total d T m) as [s1 ->]; [done|]. simpl. apply IH.
Qed.

Lemma wl_search_total fuel start T :
  well_formed T → 2 ^ size (net_places start T) ≤ fuel →
  ∃ V, wl_search d fuel start T = Ok V.
Proof.
  intros Hwf Hfuel.
  pose proof (wl_after_finishes d Hd T start fuel (wl_init start)
                (wl_inv_init T start)) as Hfin.
  unfold wl_search.
  destruct (wl_after_wf T fuel (wl_init start) Hwf) as [s Hs].
  rewrite Hs in *. simpl in *.
  destruct (take d (wl_pending s)); [|by eauto].
  exfalso. apply Hfin; [lia|done].
Qed.
End search.

Lemma bfs_Ok_inv fuel start T V :
  find_reachable_markings_bfs fuel start T = Ok V →
  ∃ s, wl_after fifo fuel T (wl_init start) = Ok s ∧ wl_pending s = [] ∧
       wl_visited s = V ∧ wl_inv T start s.
Proof. rewrite bfs_is_fifo_search. apply wl_search_Ok, fifo_complete. Qed.

(** ** The claims *)

(** C1. For a well-formed transition table the engine returns a set, and
    whatever it returns holds exactly the markings produced from the initial
    marking by some finite sequence of firings. *)
Theorem bfs_exactly_reachable (start : gset string) (T : table) :
  well_formed T →
  (∃ V, find_reachable_markings_bfs (2 ^ size (net_places start T)) start T
        = Ok V) ∧
  (∀ fuel V, find_reachable_markings_bfs fuel start T = Ok V →
     ∀ m, m ∈ V ↔ reachable T start m).
Proof.
  intros Hwf. split.
  - setoid_rewrite bfs_is_fifo_search.
    by apply wl_search_total; [apply fifo_complete|..].
  - intros fuel V HV m. rewrite bfs_is_fifo_search in HV.
    by eapply wl_search_exact; [apply fifo_complete|].
Qed.

Lemma bfs_exactly_reachable_witness :
  well_formed scenario_b ∧
  ∀ m, m ∈ ({[ {["p1"]}; {["p2"]} ]} : gset (gset string)) ↔
       reachable scenario_b {["p1"]} m.
Proof.
  assert (Hwf : well_formed scenario_b) by (unfold well_formed; compute_done).
  split; [exact Hwf|].
  apply (proj2 (bfs_exactly_reachable {["p1"]} scenario_b Hwf) 2).
  compute_done.
Defined.

(** C2. The engine terminates: with [2 ^ |places|] iterations allowed it never
    runs out; at every point of the run the visited set has at most
    [2 ^ |places|] elements and is the set of markings enqueued so far, and no
    marking is enqueued twice or expanded twice. *)
Theorem bfs_terminates (start : gset string) (T : table) :
  let B := 2 ^ size (net_places start T) in
  (∀ fuel, B ≤ fuel → find_reachable_markings_bfs fuel start T ≠ Timeout) ∧
  (∀ fuel V, find_reachable_markings_bfs fuel start T = Ok V → size V ≤ B) ∧
  (∀ fuel, find_reachable_markings_bfs fuel start T
           = wl_finish fifo (wl_after fifo fuel T (wl_init start))) ∧
  (∀ k s, wl_after fifo k T (wl_init start) = Ok s →
     size (wl_visited s) ≤ B ∧
     wl_visited s = list_to_set (wl_enqueued s) ∧
     NoDup (wl_enqueued s) ∧ NoDup (wl_expanded s)).
Proof.
  intros B. split_and!.
  - intros fuel Hfuel. rewrite bfs_is_fifo_search.
    apply (wl_after_finishes fifo fifo_complete T start);
      [apply wl_inv_init|simpl; fold B; lia].
  - intros fuel V (s & _ & _ & <- & Hinv)%bfs_Ok_inv.
    by apply wl_inv_bound.
  - intros fuel. apply bfs_is_fifo_search.
  - intros k s Hs.
    assert (Hinv : wl_inv T start s).
    { eapply (wl_after_inv fifo fifo_complete); [apply wl_inv_init|done]. }
    pose proof (inv_nodup _ _ _ Hinv) as Hnd.
    pose proof (inv_log _ _ _ Hinv) as Hlog.
    split_and!.
    + by apply wl_inv_bound.
    + apply set_eq. intros m.
      by rewrite (inv_cover _ _ _ Hinv), elem_of_list_to_set, Hlog, elem_of_app.
    + by rewrite Hlog.
    + by apply NoDup_app in Hnd as (? & _ & _).
Qed.

(** C4. Firing an enabled transition records the marking
    [(current ∖ pre) ∪ post]: a place in both [pre] and [post] is in it, and so
    is every place of [post], whether or not it was in [current]. *)
Theorem successor_marking (current : gset string) (info : t_info)
    (pre post : gset string) (s : bfs_state) :
  info !! "pre" = Some pre → info !! "post" = Some post → pre ⊆ current →
  let next := (current ∖ pre) ∪ post in
  for_body current info s = Ok (discover next s) ∧
  visited (discover next s) = {[next]} ∪ visited s ∧
  (∀ p, p ∈ pre → p ∈ post → p ∈ next) ∧
  (∀ p, p ∈ post → p ∈ next) ∧
  (∀ p, p ∈ next ↔ (p ∈ current ∧ p ∉ pre) ∨ p ∈ post).
Proof.
  intros Hpre Hpost Hsub next. split_and!.
  - unfold for_body, getitem, discover. rewrite Hpre, Hpost. simpl.
    apply issubset_spec in Hsub. rewrite Hsub. fold next.
    by case_bool_decide; case_decide.
  - unfold discover. case_decide; [set_solver|done].
  - set_solver.
  - set_solver.
  - set_solver.
Qed.

Lemma successor_marking_witness :
  "p1" ∈ ({["p1"; "p2"]} ∖ {["p1"]} ∪ {["p1"; "p3"]} : gset string) ∧
  for_body {["p1"; "p2"]} (mk_info {["p1"]} {["p1"; "p3"]})
    {| visited := {[ {["p1"; "p2"]} ]}; queue := [] |}
  = Ok (discover ({["p1"; "p2"]} ∖ {["p1"]} ∪ {["p1"; "p3"]})
          {| visited := {[ {["p1"; "p2"]} ]}; queue := [] |}).
Proof.
  assert (Hpre : mk_info {["p1"]} {["p1"; "p3"]} !! "pre" = Some {["p1"]})
    by compute_done.
  assert (Hpost : mk_info {["p1"]} {["p1"; "p3"]} !! "post"
                  = Some {["p1"; "p3"]}) by compute_done.
  assert (Hsub : ({["p1"]} : gset string) ⊆ {["p1"; "p2"]}) by compute_done.
  pose proof (successor_marking {["p1"; "p2"]} _ _ _
                {| visited := {[ {["p1"; "p2"]} ]}; queue := [] |}
                Hpre Hpost Hsub) as (Hbody & _ & Hboth & _).
  split; [apply Hboth; compute_done|exact Hbody].
Defined.

(** C5. The enabled test holds exactly when the precondition set is a subset
    of the current marking, so an empty precondition set passes at every
    marking; the loop body fires the transition exactly in that case. *)
Theorem enabled_test (current pre post : gset string) (s : bfs_state) :
  issubset ∅ current = true ∧
  (issubset pre current = true ↔ pre ⊆ current) ∧
  for_body current (mk_info pre post) s
  = Ok (if decide (pre ⊆ current)
        then discover ((current ∖ pre) ∪ post) s else s) ∧
  for_body current (mk_info ∅ post) s = Ok (discover (current ∪ post) s).
Proof.
  assert (Hbody : ∀ pre', for_body current (mk_info pre' post) s
    = Ok (if decide (pre' ⊆ current)
          then discover ((current ∖ pre') ∪ post) s else s)).
  { intros pre'. unfold for_body, getitem.
    rewrite mk_info_pre, mk_info_post. simpl.
    destruct (issubset pre' current) eqn:Hsub.
    - apply issubset_spec in Hsub. rewrite decide_True by done.
      unfold discover. by case_bool_decide; case_decide.
    - rewrite decide_False; [done|]. intros ?%issubset_spec. congruence. }
  split_and!.
  - apply issubset_spec. set_solver.
  - apply issubset_spec.
  - apply Hbody.
  - rewrite Hbody, decide_True by set_solver. do 2 f_equal. set_solver.
Qed.

(** C7. Scenario D: with [t1] needing both [p1] and [p2] and only [p1] marked,
    the engine returns the single marking [{p1}]; [p2] is in no reachable
    marking and [t1] is enabled at none. *)
Theorem scenario_d_result :
  (∀ fuel, find_reachable_markings_bfs (S fuel) {["p1"]} scenario_d
           = Ok {[ {["p1"]} ]}) ∧
  size ({[ {["p1"]} ]} : gset (gset string)) = 1 ∧
  (∀ m, reachable scenario_d {["p1"]} m →
        ("p2" ∉ m) ∧ fire (mk_info {["p1"; "p2"]} {["p3"]}) m = None).
Proof.
  assert (H1 : find_reachable_markings_bfs 1 {["p1"]} scenario_d
               = Ok {[ {["p1"]} ]}) by compute_done.
  split_and!.
  - intros fuel. eapply while_queue_mono; [exact H1|lia].
  - apply size_singleton.
  - intros m Hm. rewrite bfs_is_fifo_search in H1.
    apply (wl_search_exact fifo fifo_complete _ _ _ _ m) in H1.
    apply H1, elem_of_singleton in Hm as ->. split; compute_done.
Qed.

(** C8. On a well-formed transition table the engine raises no exception, and
    given [2 ^ |places|] iterations or more it returns a set. *)
Theorem bfs_total (start : gset string) (T : table) :
  well_formed T →
  (∀ fuel e, find_reachable_markings_bfs fuel start T ≠ Raise e) ∧
  (∀ fuel, 2 ^ size (net_places start T) ≤ fuel →
     ∃ V, find_reachable_markings_bfs fuel start T = Ok V).
Proof.
  intros Hwf. split.
  - intros fuel e. rewrite bfs_is_fifo_search. unfold wl_search.
    destruct (wl_after_wf fifo T fuel (wl_init start) Hwf) as [s ->].
    simpl. by destruct (wl_pending s).
  - intros fuel Hfuel. rewrite bfs_is_fifo_search.
    by apply wl_search_total; [apply fifo_complete|..].
Qed.

Lemma bfs_total_witness :
  well_formed scenario_b ∧
  ∃ V, find_reachable_markings_bfs 4 {["p1"]} scenario_b = Ok V.
Proof.
  assert (Hwf : well_formed scenario_b) by (unfold well_formed; compute_done).
  split; [exact Hwf|].
  apply (proj2 (bfs_total {["p1"]} scenario_b Hwf) 4). compute_done.
Defined.

(** C10. Every returned marking is a subset of the initial marking united
    with all postcondition sets. *)
Theorem bfs_markings_within (fuel : nat) (start : gset string) (T : table)
    (V : gset (gset string)) (m : gset string) :
  find_reachable_markings_bfs fuel start T = Ok V →
  m ∈ V → m ⊆ start ∪ all_posts T.
Proof.
  intros (s & _ & _ & <- & Hinv)%bfs_Ok_inv Hm.
  by apply rtc_fires_posts, (inv_sound _ _ _ Hinv).
Qed.

Lemma bfs_markings_within_witness :
  ({["p2"]} : gset string) ⊆ {["p1"]} ∪ all_posts scenario_b.
Proof.
  apply (bfs_markings_within 4 {["p1"]} scenario_b {[ {["p1"]}; {["p2"]} ]});
    compute_done.
Defined.

Lemma convert_net_spec (net : PetriNet) : adapter_spec post_rule_code net.
Proof.
  unfold adapter_spec, convert_net_to_bfs_format.
  destruct (initial_table_spec (transitions net).*1) as (Hnd & Hkeys & Hent).
  destruct (for_arcs_inv net [] (arcs net)
    (foldl (λ d t_id, setitem t_id (mk_info ∅ ∅) d) [] (transitions net).*1))
    as (tbl & Htbl & [Hnd' Hkeys' Hent']).
  { split; [done|done|]. intros t info ->%Hent. exists ∅, ∅.
    split; [done|]. split; intros p; split.
    - by intros ?%not_elem_of_empty.
    - by intros (a & ?%elem_of_nil & _).
    - by intros ?%not_elem_of_empty.
    - by intros (a & ?%elem_of_nil & _). }
  rewrite Htbl. simpl. eexists _, tbl. split; [done|].
  split_and!; [apply initial_marking_spec|done..].
Qed.

(** C3. For every net model the adapter returns the identifiers of the
    places with a positive initial token count, and a table with one entry per
    declared transition, whose precondition set holds exactly the sources of
    the place→transition arcs into the transition and whose postcondition set
    holds exactly the targets of the transition→place arcs out of it; an arc
    of any other shape adds nothing. *)
Theorem adapter_converts (net : PetriNet) :
  bipartite net → adapter_spec post_rule_spec net.
Proof.
  intros Hbip.
  destruct (convert_net_spec net) as (init & tbl & ? & ? & ? & ? & Hent).
  exists init, tbl. split_and!; [done..|].
  intros t info (pre & post & -> & Hpre & Hpost)%Hent.
  exists pre, post. split_and!; [done..|].
  intros p. rewrite (Hpost p). unfold post_rule_code, post_rule_spec.
  split; intros (a & Ha & Hrule & Hst); exists a; split_and?; try tauto.
  intros [Hp _]. destruct Hrule as [Ht _].
  unfold bipartite in Hbip. rewrite Forall_forall in Hbip.
  by apply (Hbip _ Hp).
Qed.

Lemma adapter_converts_witness :
  bipartite net_a ∧ adapter_spec post_rule_spec net_a.
Proof.
  assert (Hbip : bipartite net_a) by (unfold bipartite; compute_done).
  split; [exact Hbip|]. exact (adapter_converts net_a Hbip).
Defined.

(** C6. Two tables that are permutations of each other give the same result,
    and so does any complete worklist discipline in place of the FIFO queue;
    on a well-formed table all of these runs do return. *)
Theorem order_independent (start : gset string) (T1 T2 : table)
    (d : discipline) :
  T1 ≡ₚ T2 → complete d →
  (∀ fuel1 fuel2 V1 V2,
     find_reachable_markings_bfs fuel1 start T1 = Ok V1 →
     (find_reachable_markings_bfs fuel2 start T2 = Ok V2 ∨
      wl_search d fuel2 start T1 = Ok V2 ∨
      wl_search d fuel2 start T2 = Ok V2) →
     V1 = V2) ∧
  (well_formed T1 →
   ∃ V, find_reachable_markings_bfs (2 ^ size (net_places start T1)) start T1
        = Ok V ∧
        find_reachable_markings_bfs (2 ^ size (net_places start T2)) start T2
        = Ok V ∧
        wl_search d (2 ^ size (net_places start T1)) start T1 = Ok V).
Proof.
  intros HT Hd.
  assert (Hsame : ∀ fuel1 fuel2 V1 V2,
     find_reachable_markings_bfs fuel1 start T1 = Ok V1 →
     (find_reachable_markings_bfs fuel2 start T2 = Ok V2 ∨
      wl_search d fuel2 start T1 = Ok V2 ∨
      wl_search d fuel2 start T2 = Ok V2) →
     V1 = V2).
  { intros fuel1 fuel2 V1 V2 H1 H2. apply set_eq. intros m.
    rewrite bfs_is_fifo_search in H1.
    rewrite (wl_search_exact fifo fifo_complete _ _ _ _ m H1).
    destruct H2 as [H2|[H2|H2]].
    - rewrite bfs_is_fifo_search in H2.
      rewrite (wl_search_exact fifo fifo_complete _ _ _ _ m H2).
      split; apply reachable_perm; done.
    - by rewrite (wl_search_exact d Hd _ _ _ _ m H2).
    - rewrite (wl_search_exact d Hd _ _ _ _ m H2).
      split; apply reachable_perm; done. }
  split; [exact Hsame|]. intros Hwf1.
  assert (Hwf2 : well_formed T2) by (unfold well_formed; by rewrite <-HT).
  destruct (wl_search_total fifo fifo_complete _ start T1 Hwf1 (le_n _))
    as [V HV].
  destruct (wl_search_total fifo fifo_complete _ start T2 Hwf2 (le_n _))
    as [V2 HV2].
  destruct (wl_search_total d Hd _ start T1 Hwf1 (le_n _)) as [V3 HV3].
  rewrite <-bfs_is_fifo_search in HV, HV2.
  pose proof (Hsame _ _ V V2 HV (or_introl HV2)) as <-.
  pose proof (Hsame _ _ V V3 HV (or_intror (or_introl HV3))) as <-.
  by exists V.
Qed.

Lemma order_independent_witness :
  scenario_b ≡ₚ reverse scenario_b ∧ complete lifo ∧
  ∃ V, find_reachable_markings_bfs
         (2 ^ size (net_places {["p1"]} (reverse scenario_b))) {["p1"]}
         (reverse scenario_b) = Ok V ∧
       wl_search lifo (2 ^ size (net_places {["p1"]} scenario_b)) {["p1"]}
         scenario_b = Ok V.
Proof.
  assert (Hperm : scenario_b ≡ₚ reverse scenario_b)
    by apply Permutation_sym, reverse_Permutation.
  assert (Hwf : well_formed scenario_b) by (unfold well_formed; compute_done).
  split; [exact Hperm|]. split; [exact lifo_complete|].
  destruct (proj2 (order_independent {["p1"]} scenario_b (reverse scenario_b)
                     lifo Hperm lifo_complete) Hwf) as (V & _ & H2 & H3).
  exists V. split; [exact H2|exact H3].
Defined.

(** ** The heap model *)

(** *** Objects that existed before the call are left alone *)

Lemma keeps_ret h0 {A} (a : A) (Q : A → Prop) : Q a → keeps h0 (mret a) Q.
Proof. intros HQ h Hh. split; [done|]. by intros a' [= <-]. Qed.

Lemma keeps_raise h0 {A} e (Q : A → Prop) : keeps h0 (raise e) Q.
Proof. intros h Hh. split; [done|]. by intros a' [=]. Qed.

Lemma keeps_timeout h0 {A} (Q : A → Prop) : keeps h0 timeout Q.
Proof. intros h Hh. split; [done|]. by intros a' [=]. Qed.

Lemma keeps_bind h0 {A B} (m : M A) (f : A → M B) (Q : A → Prop)
    (R : B → Prop) :
  keeps h0 m Q → (∀ a, Q a → keeps h0 (f a) R) → keeps h0 (m ≫= f) R.
Proof.
  intros Hm Hf h Hh. destruct (Hm h Hh) as [Hsub HQ].
  unfold mbind, M_bind. destruct (m h) as [[a|e|] h']; simpl in *.
  - apply Hf; auto.
  - split; [done|]. by intros b [=].
  - split; [done|]. by intros b [=].
Qed.

Lemma keeps_weaken h0 {A} (m : M A) (Q R : A → Prop) :
  keeps h0 m Q → (∀ a, Q a → R a) → keeps h0 m R.
Proof. intros Hm HQR h Hh. destruct (Hm h Hh). split; auto. Qed.

Lemma keeps_load h0 l : keeps h0 (load l) (λ _, True).
Proof.
  intros h Hh. unfold load. by destruct (h !! l); simpl.
Qed.

Lemma keeps_store h0 l o : h0 !! l = None → keeps h0 (store l o) (λ _, True).
Proof.
  intros Hl h Hh. unfold store. simpl. split; [|done].
  by apply insert_subseteq_r.
Qed.

Lemma keeps_alloc h0 o : keeps h0 (alloc o) (λ l, h0 !! l = None).
Proof.
  intros h Hh. unfold alloc. simpl.
  assert (Hfresh : h !! fresh (dom h) = None).
  { apply not_elem_of_dom, is_fresh. }
  assert (h0 !! fresh (dom h) = None) by (by eapply lookup_weaken_None).
  split; [by apply insert_subseteq_r|]. by intros l [= <-].
Qed.

Lemma keeps_read_set h0 l : keeps h0 (read_set l) (λ _, True).
Proof.
  eapply keeps_bind; [apply keeps_load|]. intros [] _;
    first [by apply keeps_ret|apply keeps_raise].
Qed.

Lemma keeps_read_dict h0 l : keeps h0 (read_dict l) (λ _, True).
Proof.
  eapply keeps_bind; [apply keeps_load|]. intros [] _;
    first [by apply keeps_ret|apply keeps_raise].
Qed.

Lemma keeps_read_visited h0 l : keeps h0 (read_visited l) (λ _, True).
Proof.
  eapply keeps_bind; [apply keeps_load|]. intros [] _;
    first [by apply keeps_ret|apply keeps_raise].
Qed.

Lemma keeps_read_deque h0 l : keeps h0 (read_deque l) (λ _, True).
Proof.
  eapply keeps_bind; [apply keeps_load|]. intros [] _;
    first [by apply keeps_ret|apply keeps_raise].
Qed.

Lemma keeps_subscript h0 l key : keeps h0 (subscript l key) (λ _, True).
Proof.
  eapply keeps_bind; [apply keeps_read_dict|]. intros d _.
  destruct (dict_getitem d key);
    [by apply keeps_ret|apply keeps_raise|apply keeps_timeout].
Qed.

Lemma keeps_visited_add h0 vl m :
  h0 !! vl = None → keeps h0 (visited_add vl m) (λ _, True).
Proof.
  intros Hvl. eapply keeps_bind; [apply keeps_read_visited|].
  intros v _. by apply keeps_store.
Qed.

Lemma keeps_deque_append h0 ql m :
  h0 !! ql = None → keeps h0 (deque_append ql m) (λ _, True).
Proof.
  intros Hql. eapply keeps_bind; [apply keeps_read_deque|].
  intros q _. by apply keeps_store.
Qed.

Lemma keeps_for_body h0 current l vl ql :
  h0 !! vl = None → h0 !! ql = None →
  keeps h0 (h_for_body current l vl ql) (λ _, True).
Proof.
  intros Hvl Hql. unfold h_for_body.
  eapply keeps_bind; [apply keeps_subscript|]. intros pre_set _.
  eapply keeps_bind; [apply keeps_subscript|]. intros post_set _.
  eapply keeps_bind; [apply keeps_read_set|]. intros pre _.
  destruct (issubset pre current); [|by apply keeps_ret].
  eapply keeps_bind; [apply keeps_read_set|]. intros post _.
  eapply keeps_bind; [apply keeps_read_visited|]. intros v _.
  case_bool_decide; [by apply keeps_ret|].
  eapply keeps_bind; [by apply keeps_visited_add|]. intros _ _.
  by apply keeps_deque_append.
Qed.

Lemma keeps_for_transitions h0 items current vl ql :
  h0 !! vl = None → h0 !! ql = None →
  keeps h0 (h_for_transitions items current vl ql) (λ _, True).
Proof.
  intros Hvl Hql. induction items as [|[t l] items IH]; simpl.
  - by apply keeps_ret.
  - eapply keeps_bind; [by apply keeps_for_body|]. by intros _ _.
Qed.

Lemma keeps_while_queue h0 fuel tl vl ql :
  h0 !! vl = None → h0 !! ql = None →
  keeps h0 (h_while_queue fuel tl vl ql) (λ _, True).
Proof.
  intros Hvl Hql. induction fuel as [|fuel IH]; simpl.
  - eapply keeps_bind; [apply keeps_read_deque|]. intros [|m rest] _;
      [by apply keeps_ret|apply keeps_timeout].
  - eapply keeps_bind; [apply keeps_read_deque|]. intros [|m rest] _;
      [by apply keeps_ret|].
    eapply keeps_bind; [by apply keeps_store|]. intros _ _.
    eapply keeps_bind; [apply keeps_read_dict|]. intros items _.
    eapply keeps_bind; [by apply keeps_for_transitions|]. by intros _ _.
Qed.

Lemma keeps_find h0 fuel sl tl :
  keeps h0 (h_find_reachable_markings_bfs fuel sl tl) (λ vl, h0 !! vl = None).
Proof.
  unfold h_find_reachable_markings_bfs.
  eapply keeps_bind; [apply keeps_read_set|]. intros start _.
  eapply keeps_bind; [apply keeps_alloc|]. intros vl Hvl. simpl in Hvl.
  eapply keeps_bind; [apply keeps_alloc|]. intros ql Hql. simpl in Hql.
  eapply keeps_bind; [by apply keeps_visited_add|]. intros _ _.
  eapply keeps_bind; [by apply keeps_deque_append|]. intros _ _.
  eapply keeps_bind; [by apply keeps_while_queue|]. intros _ _.
  by apply keeps_ret.
Qed.

(** *** The heap run computes what the functional engine computes *)

Lemma read_set_run (h : heap) l s :
  h !! l = Some (SetObj s) → read_set l h = (Ok s, h).
Proof. intros Hl. unfold read_set, mbind, M_bind, load. by rewrite Hl. Qed.

Lemma read_dict_run (h : heap) l d :
  h !! l = Some (DictObj d) → read_dict l h = (Ok d, h).
Proof. intros Hl. unfold read_dict, mbind, M_bind, load. by rewrite Hl. Qed.

Lemma read_visited_run (h : heap) l v :
  h !! l = Some (VisitedObj v) → read_visited l h = (Ok v, h).
Proof. intros Hl. unfold read_visited, mbind, M_bind, load. by rewrite Hl. Qed.

Lemma read_deque_run (h : heap) l q :
  h !! l = Some (DequeObj q) → read_deque l h = (Ok q, h).
Proof. intros Hl. unfold read_deque, mbind, M_bind, load. by rewrite Hl. Qed.

Lemma bind_run {A B} (m : M A) (f : A → M B) (h h' : heap) a :
  m h = (Ok a, h') → (m ≫= f) h = f a h'.
Proof. intros Hm. unfold mbind, M_bind. by rewrite Hm. Qed.

Lemma bind_raise {A B} (m : M A) (f : A → M B) (h h' : heap) e :
  m h = (Raise e, h') → (m ≫= f) h = (Raise e, h').
Proof. intros Hm. unfold mbind, M_bind. by rewrite Hm. Qed.

Lemma dict_getitem_Raise {V} (d : list (string * V)) key e :
  dict_getitem d key = Raise e → e = KeyError key.
Proof.
  induction d as [|[k v] d IH]; simpl; [by intros [= <-]|].
  by case_decide.
Qed.

Lemma dict_getitem_not_Timeout {V} (d : list (string * V)) key :
  dict_getitem d key ≠ Timeout.
Proof. induction d as [|[k v] d IH]; simpl; [done|]. by case_decide. Qed.

Lemma subscript_run (h : heap) l d key l' :
  h !! l = Some (DictObj d) → dict_getitem d key = Ok l' →
  subscript l key h = (Ok l', h).
Proof.
  intros Hl Hget. unfold subscript.
  rewrite (bind_run _ _ h h d) by by apply read_dict_run.
  destruct (dict_getitem d key); by simplify_eq.
Qed.

Lemma subscript_raise (h : heap) l d key e :
  h !! l = Some (DictObj d) → dict_getitem d key = Raise e →
  subscript l key h = (Raise (KeyError key), h).
Proof.
  intros Hl Hget. unfold subscript.
  rewrite (bind_run _ _ h h d) by by apply read_dict_run.
  apply dict_getitem_Raise in Hget as Heq. subst e.
  destruct (dict_getitem d key); by simplify_eq.
Qed.

Lemma visited_add_run (h : heap) vl v m :
  h !! vl = Some (VisitedObj v) →
  visited_add vl m h = (Ok (), <[vl := VisitedObj ({[m]} ∪ v)]> h).
Proof.
  intros Hl. unfold visited_add.
  by rewrite (bind_run _ _ h h v) by by apply read_visited_run.
Qed.

Lemma deque_append_run (h : heap) ql q m :
  h !! ql = Some (DequeObj q) →
  deque_append ql m h = (Ok (), <[ql := DequeObj (q ++ [m])]> h).
Proof.
  intros Hl. unfold deque_append.
  by rewrite (bind_run _ _ h h q) by by apply read_deque_run.
Qed.

Lemma holds_field_Some (h : heap) d info key l :
  holds_field h d info key → dict_getitem d key = Ok l →
  ∃ s, info !! key = Some s ∧ h !! l = Some (SetObj s).
Proof.
  unfold holds_field. intros H Hget. rewrite Hget in H.
  destruct (info !! key); [by eauto|done].
Qed.

Lemma holds_field_None (h : heap) d info key e :
  holds_field h d info key → dict_getitem d key = Raise e →
  info !! key = None.
Proof.
  unfold holds_field. intros H Hget. rewrite Hget in H.
  by destruct (info !! key).
Qed.

Lemma h_for_body_agrees h0 vl ql h s current l info :
  h_inv h0 vl ql h s → holds_info h0 l info →
  agrees (λ _ h' s', h_inv h0 vl ql h' s')
    (for_body current info s) (h_for_body current l vl ql h).
Proof.
  intros [Hsub Hne Hfv Hfq Hv Hq] (d & Hd & Hpre & Hpost).
  assert (Hd' : h !! l = Some (DictObj d)) by (by eapply lookup_weaken).
  unfold for_body, h_for_body, getitem.
  destruct (dict_getitem d "pre") as [lpre|e|] eqn:Hgpre.
  2:{ rewrite (holds_field_None _ _ _ _ _ Hpre Hgpre). simpl.
      by erewrite bind_raise by by eapply subscript_raise. }
  2:{ by apply dict_getitem_not_Timeout in Hgpre. }
  destruct (holds_field_Some _ _ _ _ _ Hpre Hgpre) as (pre & -> & Hlpre).
  erewrite bind_run by by eapply subscript_run. simpl.
  destruct (dict_getitem d "post") as [lpost|e|] eqn:Hgpost.
  2:{ rewrite (holds_field_None _ _ _ _ _ Hpost Hgpost). simpl.
      by erewrite bind_raise by by eapply subscript_raise. }
  2:{ by apply dict_getitem_not_Timeout in Hgpost. }
  destruct (holds_field_Some _ _ _ _ _ Hpost Hgpost) as (post & -> & Hlpost).
  erewrite bind_run by by eapply subscript_run. simpl.
  erewrite bind_run by (eapply read_set_run, lookup_weaken; done).
  destruct (issubset pre current); [|by exists ()].
  erewrite bind_run by (eapply read_set_run, lookup_weaken; done).
  erewrite bind_run by by eapply read_visited_run.
  case_bool_decide; [by exists ()|].
  erewrite bind_run by by eapply visited_add_run.
  erewrite deque_append_run by by rewrite lookup_insert_ne.
  exists (). split; [done|]. simpl. split; simpl; try done.
  - by repeat (apply insert_subseteq_r; [done|]).
  - rewrite lookup_insert_ne by done. by rewrite lookup_insert_eq.
  - by rewrite lookup_insert_eq.
Qed.

Lemma h_for_transitions_agrees h0 vl ql current items T : ∀ h s,
  h_inv h0 vl ql h s →
  Forall2 (λ it ti, it.1 = ti.1 ∧ holds_info h0 it.2 ti.2) items T →
  agrees (λ _ h' s', h_inv h0 vl ql h' s')
    (for_transitions T current s) (h_for_transitions items current vl ql h).
Proof.
  intros h s Hinv HT. revert h s Hinv.
  induction HT as [|[t l] [t' info] items T [_ Hinfo] _ IH]; intros h s Hinv;
    simpl in *.
  - by exists ().
  - pose proof (h_for_body_agrees h0 vl ql h s current l info Hinv Hinfo) as Hb.
    unfold agrees in Hb.
    destruct (for_body current info s) as [s1|e|]; simpl.
    + destruct Hb as ([] & Hout & Hinv1).
      destruct (h_for_body current l vl ql h) as [r h1] eqn:Hrun.
      simpl in *. subst r. erewrite bind_run by done. by apply IH.
    + destruct (h_for_body current l vl ql h) as [r h1] eqn:Hrun.
      simpl in *. subst r. by erewrite bind_raise by done.
    + destruct (h_for_body current l vl ql h) as [r h1] eqn:Hrun.
      simpl in *. subst r. unfold mbind, M_bind. by rewrite Hrun.
Qed.

Lemma h_while_queue_agrees h0 vl ql tl T fuel : ∀ h s,
  h_inv h0 vl ql h s → holds_table h0 tl T →
  agrees (λ _ h' V, h' !! vl = Some (VisitedObj V))
    (while_queue fuel T s) (h_while_queue fuel tl vl ql h).
Proof.
  intros h s Hinv (items & Htl & HT). revert h s Hinv.
  assert (Hdone : ∀ h s, h_inv h0 vl ql h s → queue s = [] →
    ∀ k : list (gset string) → M unit, k [] = mret () →
    agrees (λ _ h' V, h' !! vl = Some (VisitedObj V))
      (Ok (visited s)) ((read_deque ql ≫= k) h)).
  { intros h s Hinv Hq k Hk. destruct Hinv as [? ? ? ? Hv Hql].
    rewrite Hq in Hql. erewrite bind_run by by eapply read_deque_run.
    rewrite Hk. by exists (). }
  induction fuel as [|fuel IH]; intros h s Hinv; simpl.
  - destruct (queue s) as [|m rest] eqn:Hq; [by apply Hdone|].
    destruct Hinv as [? ? ? ? Hv Hql]. rewrite Hq in Hql.
    by erewrite bind_run by by eapply read_deque_run.
  - destruct (queue s) as [|m rest] eqn:Hq; [by apply Hdone|].
    pose proof Hinv as [Hsub Hne Hfv Hfq Hv Hql]. rewrite Hq in Hql.
    erewrite bind_run by by eapply read_deque_run.
    cbv beta iota. erewrite bind_run by done.
    assert (Hinv0 : h_inv h0 vl ql (<[ql := DequeObj rest]> h)
                      {| visited := visited s; queue := rest |}).
    { split; simpl; try done.
      - by apply insert_subseteq_r.
      - by rewrite lookup_insert_ne.
      - by rewrite lookup_insert_eq. }
    erewrite bind_run.
    2:{ eapply read_dict_run. rewrite lookup_insert_ne.
        - by eapply lookup_weaken.
        - intros <-. congruence. }
    pose proof (h_for_transitions_agrees h0 vl ql m items T _ _ Hinv0 HT)
      as Hfor.
    unfold agrees in Hfor.
    destruct (for_transitions T m _) as [s1|e|]; simpl.
    + destruct Hfor as ([] & Hout & Hinv1).
      destruct (h_for_transitions items m vl ql _) as [r h1] eqn:Hrun.
      simpl in *. subst r. erewrite bind_run by done. by apply IH.
    + destruct (h_for_transitions items m vl ql _) as [r h1] eqn:Hrun.
      simpl in *. subst r. by erewrite bind_raise by done.
    + destruct (h_for_transitions items m vl ql _) as [r h1] eqn:Hrun.
      simpl in *. subst r. unfold mbind, M_bind. by rewrite Hrun.
Qed.

Lemma h_find_agrees (h0 : heap) fuel sl tl start T :
  h0 !! sl = Some (SetObj start) → holds_table h0 tl T →
  agrees (λ vl h' V, h' !! vl = Some (VisitedObj V))
    (find_reachable_markings_bfs fuel start T)
    (h_find_reachable_markings_bfs fuel sl tl h0).
Proof.
  intros Hsl HT.
  unfold find_reachable_markings_bfs, h_find_reachable_markings_bfs.
  erewrite bind_run by by eapply read_set_run.
  erewrite bind_run by done. erewrite bind_run by done.
  set (vl := fresh (dom h0)).
  set (h1 := <[vl := VisitedObj ∅]> h0).
  set (ql := fresh (dom h1)).
  assert (Hvl : h0 !! vl = None) by apply not_elem_of_dom, is_fresh.
  assert (Hql1 : h1 !! ql = None) by apply not_elem_of_dom, is_fresh.
  assert (Hne : vl ≠ ql).
  { intros Heq. rewrite <-Heq in Hql1. unfold h1 in Hql1.
    by rewrite lookup_insert_eq in Hql1. }
  assert (Hql : h0 !! ql = None).
  { unfold h1 in Hql1. by rewrite lookup_insert_ne in Hql1. }
  erewrite bind_run.
  2:{ eapply visited_add_run. rewrite lookup_insert_ne by done.
      apply lookup_insert_eq. }
  erewrite bind_run.
  2:{ eapply deque_append_run. rewrite lookup_insert_ne by done.
      apply lookup_insert_eq. }
  simpl.
  match goal with |- agrees _ _ (_ ?h) => set (h2 := h) end.
  assert (Hinv : h_inv h0 vl ql h2
                   {| visited := {[start]}; queue := [start] |}).
  { split; simpl; try done.
    - unfold h2, h1. by repeat (apply insert_subseteq_r; [done|]).
    - unfold h2. rewrite lookup_insert_ne by done. rewrite lookup_insert_eq.
      by rewrite (right_id_L ∅ (∪)).
    - unfold h2. by rewrite lookup_insert_eq. }
  pose proof (h_while_queue_agrees h0 vl ql tl T fuel h2 _ Hinv HT) as Hw.
  unfold agrees in *. unfold mbind, M_bind.
  destruct (while_queue fuel T _) as [V|e|];
    destruct (h_while_queue fuel tl vl ql h2) as [r h'] eqn:Hrun;
    simpl in *.
  - destruct Hw as ([] & -> & HV). by exists vl.
  - by subst r.
  - by subst r.
Qed.

Lemma holds_info_mono (h h' : heap) l info :
  h ⊆ h' → holds_info h l info → holds_info h' l info.
Proof.
  intros Hsub (d & Hd & Hpre & Hpost). exists d.
  split; [by eapply lookup_weaken|].
  unfold holds_field in *.
  split; [destruct (dict_getitem d "pre"), (info !! "pre")
         |destruct (dict_getitem d "post"), (info !! "post")];
    try done; by eapply lookup_weaken.
Qed.

Lemma holds_table_mono (h h' : heap) l T :
  h ⊆ h' → holds_table h l T → holds_table h' l T.
Proof.
  intros Hsub (items & Hl & HT). exists items.
  split; [by eapply lookup_weaken|].
  eapply Forall2_impl; [done|]. intros it ti [? ?].
  split; [done|]. by eapply holds_info_mono.
Qed.

(** C9. Running the engine on a heap leaves every object that existed before
    the call as it was, whatever the outcome: the [start_marking] set, the
    [all_transitions] dictionary and every precondition and postcondition set
    hold the same values afterwards.  On arguments that hold a marking and a
    transition table the heap run computes what the functional engine
    computes. *)
Theorem bfs_leaves_arguments (fuel : nat) (start_marking all_transitions : loc)
    (h : heap) :
  let out :=
    h_find_reachable_markings_bfs fuel start_marking all_transitions h in
  (∀ l o, h !! l = Some o → out.2 !! l = Some o) ∧
  (∀ start T,
     h !! start_marking = Some (SetObj start) →
     holds_table h all_transitions T →
     out.2 !! start_marking = Some (SetObj start) ∧
     holds_table out.2 all_transitions T ∧
     agrees (λ vl h' V, h' !! vl = Some (VisitedObj V))
       (find_reachable_markings_bfs fuel start T) out).
Proof.
  intros out.
  assert (Hsub : h ⊆ out.2).
  { by apply (keeps_find h fuel start_marking all_transitions h). }
  split.
  - intros l o Hl. by eapply lookup_weaken.
  - intros start T Hstart HT. split_and!.
    + by eapply lookup_weaken.
    + by eapply holds_table_mono.
    + by apply h_find_agrees.
Qed.

Lemma bfs_leaves_arguments_witness :
  let out := h_find_reachable_markings_bfs 4 1%positive 2%positive heap_b in
  out.2 !! 1%positive = Some (SetObj {["p1"]}) ∧
  out.2 !! 2%positive
  = Some (DictObj [("t1", 3%positive); ("t2", 4%positive)]) ∧
  out.2 !! 5%positive = Some (SetObj {["p1"]}) ∧
  out.2 !! 6%positive = Some (SetObj {["p2"]}).
Proof.
  intros out.
  pose proof (proj1 (bfs_leaves_arguments 4 1%positive 2%positive heap_b))
    as Hkeep.
  split_and!; apply Hkeep; compute_done.
Defined.

Example heap_b_run :
  let out := h_find_reachable_markings_bfs 4 1%positive 2%positive heap_b in
  ∃ vl, out.1 = Ok vl ∧
        out.2 !! vl = Some (VisitedObj {[ {["p1"]}; {["p2"]} ]}).
Proof. exists 7%positive. split; compute_done. Qed.

(** ** Further properties of the engine *)

Lemma for_body_wf m info s :
  is_Some (info !! "pre") → is_Some (info !! "post") →
  ∃ s', for_body m info s = Ok s'.
Proof.
  intros [pre Hpre] [post Hpost]. unfold for_body, getitem.
  rewrite Hpre, Hpost. simpl.
  destruct (issubset pre m); [case_bool_decide|]; eauto.
Qed.

Lemma for_transitions_wf T m s :
  well_formed T → ∃ s', for_transitions T m s = Ok s'.
Proof.
  intros Hwf. revert s. induction Hwf as [|[t info] T [Hpre Hpost] _ IH];
    intros s; simpl; [by eauto|].
  destruct (for_body_wf m info s Hpre Hpost) as [s1 ->]. simpl. apply IH.
Qed.

(** A pass over the table stops at the first record that lacks a key. *)
Lemma for_transitions_raise T1 t info T2 m s key :
  well_formed T1 →
  getitem info "pre" ≫= (λ _, getitem info "post") = Raise (KeyError key) →
  for_transitions (T1 ++ (t, info) :: T2) m s = Raise (KeyError key).
Proof.
  intros Hwf Hkey. revert s.
  induction Hwf as [|[t1 info1] T1 [Hpre Hpost] _ IH]; intros s; simpl.
  - unfold for_body.
    destruct (getitem info "pre") as [pre| |]; simpl in *;
      [|by simplify_eq..].
    destruct (getitem info "post") as [post| |]; simpl in *; by simplify_eq.
  - destruct (for_body_wf m info1 s Hpre Hpost) as [s1 ->]. simpl. apply IH.
Qed.

(** A pass that finds only markings seen before changes nothing. *)
Lemma for_transitions_nothing_new T m s :
  well_formed T → (∀ m', fires T m m' → m' ∈ visited s) →
  for_transitions T m s = Ok s.
Proof.
  intros Hwf. induction Hwf as [|[t info] T [[pre Hpre] [post Hpost]] _ IH];
    intros Hseen; simpl; [done|].
  assert (for_body m info s = Ok s) as ->.
  { simpl in Hpre, Hpost. unfold for_body, getitem. rewrite Hpre, Hpost. simpl.
    destruct (issubset pre m) eqn:Hsub; [|done].
    rewrite bool_decide_eq_true_2; [done|]. apply Hseen.
    exists (t, info). split; [left|]. apply fire_Some.
    exists pre, post. by apply issubset_spec in Hsub. }
  simpl. apply IH. intros m' (ti & Hin & Hf). apply Hseen.
  exists ti. split; [by right|done].
Qed.

Lemma bfs_Ok_exact fuel start T V m :
  find_reachable_markings_bfs fuel start T = Ok V →
  m ∈ V ↔ rtc (fires T) start m.
Proof.
  rewrite bfs_is_fifo_search. intros HV.
  rewrite <-reachable_rtc. by eapply wl_search_exact; [apply fifo_complete|].
Qed.

Lemma fires_mono T T' m m' : T ⊆ T' → fires T m m' → fires T' m m'.
Proof. intros Hsub (ti & Hin & Hf). exists ti. split; [by apply Hsub|done]. Qed.

Lemma fires_records T T' m m' :
  (∀ info, info ∈ T.*2 → info ∈ T'.*2) → fires T m m' → fires T' m m'.
Proof.
  intros Hrec ([t info] & Hin & Hf).
  assert (Hinfo : info ∈ T.*2) by (apply list_elem_of_fmap; by exists (t, info)).
  apply Hrec, list_elem_of_fmap in Hinfo as ([t' info'] & -> & Hin').
  by exists (t', info').
Qed.

Lemma rtc_fires_impl T T' start m :
  (∀ m1 m2, fires T m1 m2 → fires T' m1 m2) →
  rtc (fires T) start m → rtc (fires T') start m.
Proof. intros Himpl. apply rtc_subrel. exact Himpl. Qed.

(** A run that returns has gone through the table at least once, so the table
    is well formed. *)
Lemma bfs_Ok_well_formed fuel start T V :
  find_reachable_markings_bfs fuel start T = Ok V → well_formed T.
Proof.
  unfold find_reachable_markings_bfs. destruct fuel as [|fuel]; simpl; [done|].
  pose (s0 := {| wl_visited := {[start]}; wl_pending := [];
                 wl_expanded := [start]; wl_enqueued := [start] |}).
  change (BfsState {[start]} []) with (erase s0).
  rewrite for_transitions_erase.
  destruct (wl_for fifo T start s0) as [s1| |] eqn:Hfor; simpl; [|done..].
  intros _. by apply (wl_for_Ok fifo fifo_complete) in Hfor as [? _].
Qed.

(** Termination against any bound on the visited set. *)
Lemma wl_after_finishes_bound d T start B k s :
  complete d →
  (∀ s', wl_inv T start s' → size (wl_visited s') ≤ B) →
  wl_inv T start s → B ≤ k + length (wl_expanded s) →
  wl_finish d (wl_after d k T s) ≠ Timeout.
Proof.
  intros Hd HB. revert s. induction k as [|k IH]; intros s Hinv Hk; simpl.
  - destruct (take d (wl_pending s)) as [[m rest]|] eqn:Htake; [|done].
    apply (take_some d Hd) in Htake. exfalso.
    pose proof (HB _ Hinv) as Hb.
    rewrite (wl_inv_size _ _ _ Hinv), Htake in Hb. simpl in *. lia.
  - destruct (take d (wl_pending s)) as [[m rest]|] eqn:Htake; simpl.
    2:{ by rewrite Htake. }
    destruct (wl_for _ _ _ _) as [s1|e|] eqn:Hfor; simpl; [|done|].
    + apply IH; [by eapply wl_inv_step|].
      apply (wl_for_Ok d Hd) in Hfor as (_ & -> & _). simpl.
      rewrite length_app. simpl. lia.
    + by apply wl_for_not_Timeout in Hfor.
Qed.

(** The number of iterations a finished run has made. *)
Lemma wl_after_iterations d T k s s' :
  complete d → wl_after d k T s = Ok s' →
  length (wl_expanded s') ≤ length (wl_expanded s) + k.
Proof.
  intros Hd. revert s. induction k as [|k IH]; intros s; simpl.
  - intros [= <-]. lia.
  - destruct (take d (wl_pending s)) as [[m rest]|]; [|intros [= <-]; lia].
    destruct (wl_for _ _ _ _) as [s1| |] eqn:Hfor; simpl; [|done..].
    intros Hs'%IH.
    apply (wl_for_Ok d Hd) in Hfor as (_ & Hexp & _). simpl in Hexp.
    rewrite Hexp, length_app in Hs'. simpl in Hs'. lia.
Qed.

(** X1. A returned set contains the initial marking, so it is never empty. *)
Theorem bfs_contains_start (fuel : nat) (start : gset string) (T : table)
    (V : gset (gset string)) :
  find_reachable_markings_bfs fuel start T = Ok V → start ∈ V ∧ 0 < size V.
Proof.
  intros (s & _ & _ & <- & Hinv)%bfs_Ok_inv.
  pose proof (inv_start _ _ _ Hinv) as Hstart. split; [done|].
  destruct (decide (size (wl_visited s) = 0)) as [Hz|]; [|lia].
  apply size_empty_iff in Hz. set_solver.
Qed.

Lemma bfs_contains_start_witness :
  ({["p1"]} : gset string) ∈ ({[ {["p1"]}; {["p2"]} ]} : gset (gset string)) ∧
  0 < size ({[ {["p1"]}; {["p2"]} ]} : gset (gset string)).
Proof.
  apply (bfs_contains_start 2 {["p1"]} scenario_b). compute_done.
Defined.

(** X2. The first record of the table that lacks a key decides the outcome:
    without ['pre'] the engine raises [KeyError 'pre'], with ['pre'] but
    without ['post'] it raises [KeyError 'post'], whether or not the transition
    could fire. *)
Theorem bfs_missing_key (fuel : nat) (start : gset string) (T1 T2 : table)
    (t : string) (info : t_info) :
  well_formed T1 →
  (info !! "pre" = None →
   find_reachable_markings_bfs (S fuel) start (T1 ++ (t, info) :: T2)
   = Raise (KeyError "pre")) ∧
  (is_Some (info !! "pre") → info !! "post" = None →
   find_reachable_markings_bfs (S fuel) start (T1 ++ (t, info) :: T2)
   = Raise (KeyError "post")).
Proof.
  intros Hwf. unfold find_reachable_markings_bfs. simpl. split.
  - intros Hpre. rewrite (for_transitions_raise _ _ _ _ _ _ "pre"); [done..|].
    unfold getitem. by rewrite Hpre.
  - intros [pre Hpre] Hpost.
    rewrite (for_transitions_raise _ _ _ _ _ _ "post"); [done..|].
    unfold getitem. by rewrite Hpre, Hpost.
Qed.

Lemma bfs_missing_key_witness :
  find_reachable_markings_bfs 1 {["p1"]}
    (scenario_b ++ [("t3", {[ "pre" := {["p9"]} ]})])
  = Raise (KeyError "post").
Proof.
  assert (Hwf : well_formed scenario_b) by (unfold well_formed; compute_done).
  apply (proj2 (bfs_missing_key 0 {["p1"]} scenario_b [] "t3"
                  {[ "pre" := {["p9"]} ]} Hwf)); compute_done.
Defined.

(** X3. When no firing at the initial marking leads anywhere else (no
    transition is enabled, every enabled one reproduces the marking, or the
    table is empty), the engine returns the initial marking alone after one
    iteration. *)
Theorem bfs_dead_start (fuel : nat) (start : gset string) (T : table) :
  well_formed T → (∀ m', fires T start m' → m' = start) →
  find_reachable_markings_bfs (S fuel) start T = Ok {[start]}.
Proof.
  intros Hwf Hdead. unfold find_reachable_markings_bfs. simpl.
  rewrite for_transitions_nothing_new; [by destruct fuel|done|].
  intros m' ->%Hdead. simpl. set_solver.
Qed.

Lemma bfs_dead_start_witness :
  find_reachable_markings_bfs 1 {["p1"]} scenario_d = Ok {[ {["p1"]} ]}.
Proof.
  apply (bfs_dead_start 0 {["p1"]} scenario_d).
  - unfold well_formed. compute_done.
  - intros m' (ti & ->%list_elem_of_singleton & Hf). exfalso.
    revert Hf. by vm_compute.
Defined.

(** X4. Adding transitions to the table never loses a marking. *)
Theorem bfs_monotone_table (fuel fuel' : nat) (start : gset string)
    (T T' : table) (V V' : gset (gset string)) :
  T ⊆ T' →
  find_reachable_markings_bfs fuel start T = Ok V →
  find_reachable_markings_bfs fuel' start T' = Ok V' →
  V ⊆ V'.
Proof.
  intros Hsub HV HV' m Hm.
  apply (bfs_Ok_exact _ _ _ _ m HV') .
  apply (bfs_Ok_exact _ _ _ _ m HV) in Hm.
  eapply rtc_fires_impl; [|done]. intros m1 m2. by apply fires_mono.
Qed.

Lemma bfs_monotone_table_witness :
  ({[ {["p1"]} ]} : gset (gset string))
  ⊆ {[ {["p1"]}; {["p2"]}; {["p3"]} ]}.
Proof.
  apply (bfs_monotone_table 1 3 {["p1"]} scenario_d
           (scenario_d ++ [("t2", mk_info {["p1"]} {["p2"]});
                           ("t3", mk_info {["p2"]} {["p3"]})])).
  - intros ti Hti. apply elem_of_app. by left.
  - compute_done.
  - compute_done.
Defined.

(** X5. Searching again from a marking of the result finds nothing that was
    not in the result already. *)
Theorem bfs_restart (fuel fuel' : nat) (start m : gset string) (T : table)
    (V V' : gset (gset string)) :
  find_reachable_markings_bfs fuel start T = Ok V → m ∈ V →
  find_reachable_markings_bfs fuel' m T = Ok V' →
  V' ⊆ V.
Proof.
  intros HV Hm HV' m' Hm'.
  apply (bfs_Ok_exact _ _ _ _ m' HV).
  apply (bfs_Ok_exact _ _ _ _ m HV) in Hm.
  apply (bfs_Ok_exact _ _ _ _ m' HV') in Hm'.
  by etransitivity.
Qed.

Lemma bfs_restart_witness :
  ({[ {["p2"]}; {["p1"]} ]} : gset (gset string)) ⊆ {[ {["p1"]}; {["p2"]} ]}.
Proof.
  apply (bfs_restart 2 2 {["p1"]} {["p2"]} scenario_b); compute_done.
Defined.

(** X6. A transition that is enabled at no marking of the result can be
    deleted from the table without changing the result. *)
Theorem bfs_dead_transition (fuel fuel' : nat) (start : gset string)
    (T1 T2 : table) (ti : string * gmap string (gset string))
    (V V' : gset (gset string)) :
  find_reachable_markings_bfs fuel start (T1 ++ ti :: T2) = Ok V →
  (∀ m, m ∈ V → fire ti.2 m = None) →
  find_reachable_markings_bfs fuel' start (T1 ++ T2) = Ok V' →
  V' = V.
Proof.
  intros HV Hdead HV'. apply set_eq. intros m.
  rewrite (bfs_Ok_exact _ _ _ _ m HV), (bfs_Ok_exact _ _ _ _ m HV'). split.
  - apply rtc_fires_impl. intros m1 m2. apply fires_mono.
    intros x [?|?]%elem_of_app; apply elem_of_app; [by left|right; by right].
  - revert m. apply rtc_ind_r; [done|]. intros m1 m2 Hm1 Hf IH.
    eapply rtc_r; [done|]. destruct Hf as (tj & Hin & Hf).
    exists tj. split; [|done].
    apply elem_of_app in Hin as [?|[->|?]%elem_of_cons];
      [apply elem_of_app; by left| |apply elem_of_app; by right].
    apply (bfs_Ok_exact _ _ _ _ m1 HV), Hdead in Hm1. congruence.
Qed.

Lemma bfs_dead_transition_witness :
  ({[ {["p1"]}; {["p2"]} ]} : gset (gset string)) = {[ {["p1"]}; {["p2"]} ]}.
Proof.
  apply (bfs_dead_transition 2 2 {["p1"]} scenario_b []
           ("t9", mk_info {["p1"; "p2"]} {["p3"]})).
  - compute_done.
  - intros m [Hm|Hm]%elem_of_union; apply elem_of_singleton in Hm as ->;
      compute_done.
  - compute_done.
Defined.

Lemma bfs_wf_not_Raise fuel start T e :
  well_formed T → find_reachable_markings_bfs fuel start T ≠ Raise e.
Proof.
  intros Hwf. rewrite bfs_is_fifo_search. unfold wl_search.
  destruct (wl_after_wf fifo T fuel (wl_init start) Hwf) as [s ->].
  simpl. by destruct (wl_pending s).
Qed.

Lemma bfs_Ok_iterations fuel start T V :
  find_reachable_markings_bfs fuel start T = Ok V → size V ≤ fuel.
Proof.
  intros (s & Hafter & Hnil & <- & Hinv)%bfs_Ok_inv.
  rewrite (wl_inv_size _ _ _ Hinv), Hnil. simpl.
  apply (wl_after_iterations fifo _ _ _ _ fifo_complete) in Hafter.
  simpl in Hafter. lia.
Qed.

(** X7. The result depends on the transition records only: neither the
    identifiers, nor the order, nor repeated records matter. *)
Theorem bfs_records_only (fuel1 fuel2 : nat) (start : gset string)
    (T1 T2 : table) (V1 V2 : gset (gset string)) :
  (∀ info, info ∈ T1.*2 ↔ info ∈ T2.*2) →
  find_reachable_markings_bfs fuel1 start T1 = Ok V1 →
  find_reachable_markings_bfs fuel2 start T2 = Ok V2 →
  V1 = V2.
Proof.
  intros Hrec H1 H2. apply set_eq. intros m.
  rewrite (bfs_Ok_exact _ _ _ _ m H1), (bfs_Ok_exact _ _ _ _ m H2).
  split; apply rtc_fires_impl; intros m1 m2; apply fires_records;
    intros info; apply Hrec.
Qed.

Lemma bfs_records_only_witness :
  ({[ {["p1"]}; {["p2"]} ]} : gset (gset string)) = {[ {["p1"]}; {["p2"]} ]}.
Proof.
  apply (bfs_records_only 2 2 {["p1"]} scenario_b
           [("a", mk_info {["p2"]} {["p1"]}); ("b", mk_info {["p1"]} {["p2"]});
            ("c", mk_info {["p2"]} {["p1"]})]).
  - intros info. unfold scenario_b. rewrite !fmap_cons. simpl.
    rewrite !elem_of_cons. tauto.
  - compute_done.
  - compute_done.
Defined.

Lemma bfs_Ok_same fuel fuel' start T V V' :
  find_reachable_markings_bfs fuel start T = Ok V →
  find_reachable_markings_bfs fuel' start T = Ok V' → V' = V.
Proof.
  intros HV HV'. apply set_eq. intros m.
  by rewrite (bfs_Ok_exact _ _ _ _ m HV), (bfs_Ok_exact _ _ _ _ m HV').
Qed.

Lemma bfs_Ok_enough fuel fuel' start T V :
  find_reachable_markings_bfs fuel start T = Ok V → size V ≤ fuel' →
  find_reachable_markings_bfs fuel' start T = Ok V.
Proof.
  intros HV Hle.
  destruct (find_reachable_markings_bfs fuel' start T) as [V'|e|] eqn:HV'.
  - f_equal. by eapply bfs_Ok_same.
  - apply bfs_wf_not_Raise in HV'; [done|by eapply bfs_Ok_well_formed].
  - exfalso. rewrite bfs_is_fifo_search in HV'. revert HV'.
    apply (wl_after_finishes_bound fifo T start (size V));
      [apply fifo_complete| |apply wl_inv_init|simpl; lia].
    intros s' Hinv. apply subseteq_size. intros m Hm.
    by apply (bfs_Ok_exact _ _ _ _ m HV), (inv_sound _ _ _ Hinv).
Qed.

(** X8. The loop body runs once per marking of the result: a run that returns
    [V] needed [size V] iterations, so with fewer allowed the loop is still
    running, and with that many or more it returns [V]. *)
Theorem bfs_iterations (fuel : nat) (start : gset string) (T : table)
    (V : gset (gset string)) :
  find_reachable_markings_bfs fuel start T = Ok V →
  ∀ fuel', find_reachable_markings_bfs fuel' start T
           = if decide (size V ≤ fuel') then Ok V else Timeout.
Proof.
  intros HV fuel'. case_decide as Hle; [by eapply bfs_Ok_enough|].
  destruct (find_reachable_markings_bfs fuel' start T) as [V'|e|] eqn:HV'.
  - pose proof (bfs_Ok_same _ _ _ _ _ _ HV HV') as ->.
    by apply bfs_Ok_iterations in HV'.
  - apply bfs_wf_not_Raise in HV'; [done|by eapply bfs_Ok_well_formed].
  - done.
Qed.

Lemma bfs_iterations_witness :
  find_reachable_markings_bfs 1 {["p1"]} scenario_b
  = if decide (size ({[ {["p1"]}; {["p2"]} ]} : gset (gset string)) ≤ 1)
    then Ok {[ {["p1"]}; {["p2"]} ]} else Timeout.
Proof.
  apply (bfs_iterations 5 {["p1"]} scenario_b). compute_done.
Defined.

(** ** Further properties of the adapter *)

Lemma entries_well_formed (net : PetriNet) F seen (tbl : table) :
  (∀ t info, (t, info) ∈ tbl → entry_of net F seen t info) → well_formed tbl.
Proof.
  intros Hent. apply Forall_forall. intros [t info] Hin.
  destruct (Hent _ _ Hin) as (pre & post & -> & _). simpl.
  rewrite mk_info_pre, mk_info_post. by eauto.
Qed.

Lemma add_place_keys field t p (d d' : table) :
  add_place field t p d = Ok d' → d'.*1 = d.*1.
Proof.
  unfold add_place.
  destruct (dict_getitem d t) as [info| |] eqn:Hget; simpl; [|done..].
  destruct (getitem info field) as [set| |]; simpl; [|done..].
  intros [= <-]. rewrite setitem_keys, decide_True; [done|].
  apply dict_getitem_Ok in Hget. apply list_elem_of_fmap. by exists (t, info).
Qed.

Lemma arc_body_keys net a (d d' : table) :
  arc_body net a d = Ok d' → d'.*1 = d.*1.
Proof.
  unfold arc_body.
  destruct (_ && _); [apply add_place_keys|].
  destruct (_ && _); [apply add_place_keys|]. by intros [= <-].
Qed.

Lemma for_arcs_keys net todo : ∀ d d' : table,
  for_arcs net todo d = Ok d' → d'.*1 = d.*1.
Proof.
  induction todo as [|a todo IH]; intros d d'; simpl; [by intros [= <-]|].
  destruct (arc_body net a d) as [d1| |] eqn:Hbody; simpl; [|done..].
  intros ->%IH. by apply arc_body_keys in Hbody.
Qed.

Lemma initial_table_keys (keys : list string) :
  NoDup keys →
  (foldl (λ (d : table) t_id, setitem t_id (mk_info ∅ ∅) d) [] keys).*1 = keys.
Proof.
  induction keys as [|k keys IH] using rev_ind; [done|].
  intros [Hnd [Hk _]]%NoDup_app. rewrite foldl_app. simpl.
  rewrite setitem_keys, IH by done. rewrite decide_False; [done|].
  intros Hin. by apply (Hk k Hin), list_elem_of_singleton.
Qed.

Lemma convert_keys net init (tbl : table) :
  convert_net_to_bfs_format net = Ok (init, tbl) →
  tbl.*1
  = (foldl (λ (d : table) t_id, setitem t_id (mk_info ∅ ∅) d) []
       (transitions net).*1).*1.
Proof.
  unfold convert_net_to_bfs_format.
  destruct (for_arcs net (arcs net) _) as [d| |] eqn:Hfor; simpl; [|done..].
  intros [= _ <-]. by apply for_arcs_keys in Hfor.
Qed.

Lemma convert_init net init (tbl : table) :
  convert_net_to_bfs_format net = Ok (init, tbl) →
  init = list_to_set
           (id <$> filter (λ p, (0 < initial_marking p)%Z) (places net).*2).
Proof.
  unfold convert_net_to_bfs_format.
  destruct (for_arcs net (arcs net) _) as [d| |]; simpl; [|done..].
  by intros [= <- _].
Qed.

Lemma assoc_eq {V} (d d' : list (string * V)) :
  d.*1 = d'.*1 →
  (∀ k v v', (k, v) ∈ d → (k, v') ∈ d' → v = v') →
  NoDup d.*1 → d = d'.
Proof.
  revert d'. induction d as [|[k v] d IH]; intros [|[k' v'] d']; try done.
  rewrite !fmap_cons. simpl. intros [= <- Hkeys] Hval [Hk Hnd]%NoDup_cons.
  f_equal.
  - f_equal. apply (Hval k); left.
  - apply IH; [done| |done]. intros k0 v0 v0' Hin Hin'.
    apply (Hval k0); by right.
Qed.

(** X9. The adapter's table is always well formed, so the engine run on the
    adapter's output raises nothing and returns a set. *)
Theorem adapter_then_engine (net : PetriNet) :
  ∃ init tbl V,
    convert_net_to_bfs_format net = Ok (init, tbl) ∧
    well_formed tbl ∧
    (∀ fuel e, find_reachable_markings_bfs fuel init tbl ≠ Raise e) ∧
    find_reachable_markings_bfs (2 ^ size (net_places init tbl)) init tbl
    = Ok V.
Proof.
  destruct (convert_net_spec net) as (init & tbl & Hconv & _ & _ & _ & Hent).
  pose proof (entries_well_formed _ _ _ _ Hent) as Hwf.
  destruct (wl_search_total fifo fifo_complete _ init tbl Hwf (le_n _))
    as [V HV].
  exists init, tbl, V. split_and!; [done|done| |by rewrite bfs_is_fifo_search].
  intros fuel e. by apply bfs_wf_not_Raise.
Qed.

(** X10. The table lists the transitions in the order of the net's
    [transitions] dictionary. *)
Theorem adapter_keeps_order (net : PetriNet) :
  NoDup (transitions net).*1 →
  ∃ init tbl, convert_net_to_bfs_format net = Ok (init, tbl) ∧
              tbl.*1 = (transitions net).*1.
Proof.
  intros Hnd.
  destruct (convert_net_spec net) as (init & tbl & Hconv & _).
  exists init, tbl. split; [done|].
  rewrite (convert_keys _ _ _ Hconv). by apply initial_table_keys.
Qed.

Lemma adapter_keeps_order_witness :
  NoDup (transitions overlap_net).*1 ∧
  ∃ init tbl, convert_net_to_bfs_format overlap_net = Ok (init, tbl) ∧
              tbl.*1 = (transitions overlap_net).*1.
Proof.
  assert (Hnd : NoDup (transitions overlap_net).*1) by compute_done.
  split; [exact Hnd|]. exact (adapter_keeps_order overlap_net Hnd).
Defined.

(** X11. Precondition and postcondition sets hold keys of the net's [places]
    dictionary only, the initial marking holds identifiers of places only,
    and so does every marking the engine then finds. *)
Theorem adapter_places_only (net : PetriNet) (init : gset string) (tbl : table) :
  convert_net_to_bfs_format net = Ok (init, tbl) →
  (∀ t info p, (t, info) ∈ tbl → p ∈ pre_of info ∪ post_of info →
               is_place net p) ∧
  (∀ p, p ∈ init → ∃ key pl, (key, pl) ∈ places net ∧ id pl = p) ∧
  (∀ fuel V m p,
     find_reachable_markings_bfs fuel init tbl = Ok V → m ∈ V → p ∈ m →
     is_place net p ∨ ∃ key pl, (key, pl) ∈ places net ∧ id pl = p).
Proof.
  intros Hconv.
  destruct (convert_net_spec net)
    as (init' & tbl' & Hconv' & Hinit & _ & _ & Hent).
  rewrite Hconv in Hconv'. injection Hconv' as <- <-.
  assert (Hsets : ∀ t info p, (t, info) ∈ tbl →
            p ∈ pre_of info ∪ post_of info → is_place net p).
  { intros t info p (pre & post & -> & Hpre & Hpost)%Hent.
    unfold pre_of, post_of. rewrite mk_info_pre, mk_info_post. simpl.
    intros [(a & _ & [Hp _] & <- & _)%Hpre
           |(a & _ & [[_ Hp] _] & _ & <-)%Hpost]%elem_of_union; done. }
  assert (Hmarked : ∀ p, p ∈ init →
            ∃ key pl, (key, pl) ∈ places net ∧ id pl = p).
  { intros p (key & pl & ? & ? & _)%Hinit. by exists key, pl. }
  split_and!; [done..|].
  intros fuel V m p (s & _ & _ & <- & Hinv)%bfs_Ok_inv Hm Hp.
  apply (inv_sound _ _ _ Hinv), rtc_fires_posts in Hm.
  apply Hm, elem_of_union in Hp as [Hp|Hp]; [right; by apply Hmarked|left].
  unfold all_posts in Hp.
  apply elem_of_union_list in Hp
    as (X & ([t info] & -> & Hin)%list_elem_of_fmap & Hp).
  apply (Hsets t info p Hin). set_solver.
Qed.

Lemma adapter_places_only_witness :
  is_place net_a "p2" ∨
  ∃ key pl, (key, pl) ∈ places net_a ∧ id pl = "p2".
Proof.
  assert (Hconv : convert_net_to_bfs_format net_a
                  = Ok ({["p1"]}, [("t1", mk_info {["p1"]} {["p2"]})]))
    by compute_done.
  apply (proj2 (proj2 (adapter_places_only net_a _ _ Hconv))
           2 {[ {["p1"]}; {["p2"]} ]} {["p2"]} "p2"); compute_done.
Defined.

(** X12. The adapter's output depends on the arcs as a set: their order and
    repetitions do not matter. *)
Theorem adapter_arcs_as_set (net : PetriNet) (arcs' : list Arc) :
  (∀ a, a ∈ arcs' ↔ a ∈ arcs net) →
  convert_net_to_bfs_format
    {| places := places net; transitions := transitions net; arcs := arcs' |}
  = convert_net_to_bfs_format net.
Proof.
  intros Harcs.
  set (net' := {| places := places net; transitions := transitions net;
                  arcs := arcs' |}).
  destruct (convert_net_spec net) as (init & tbl & Hconv & _ & Hnd & _ & Hent).
  destruct (convert_net_spec net')
    as (init' & tbl' & Hconv' & _ & _ & _ & Hent').
  rewrite Hconv, Hconv'. do 2 f_equal.
  - by rewrite (convert_init _ _ _ Hconv), (convert_init _ _ _ Hconv').
  - symmetry. apply assoc_eq; [|clear Hconv Hconv'|done].
    + by rewrite (convert_keys _ _ _ Hconv), (convert_keys _ _ _ Hconv').
    + intros t info info' (pre & post & -> & Hpre & Hpost)%Hent
        (pre' & post' & -> & Hpre' & Hpost')%Hent'.
      f_equal; apply set_eq; intros p.
      * rewrite (Hpre p), (Hpre' p). simpl.
        split; intros (a & Ha & Hrest); exists a; split; try done;
          by apply Harcs.
      * rewrite (Hpost p), (Hpost' p). simpl.
        split; intros (a & Ha & Hrest); exists a; split; try done;
          by apply Harcs.
Qed.

Lemma adapter_arcs_as_set_witness :
  convert_net_to_bfs_format
    {| places := places net_a; transitions := transitions net_a;
       arcs := [{| source := "t1"; target := "p2" |};
                {| source := "p1"; target := "t1" |};
                {| source := "t1"; target := "p2" |}] |}
  = convert_net_to_bfs_format net_a.
Proof.
  apply (adapter_arcs_as_set net_a). intros a. unfold net_a. simpl.
  rewrite !elem_of_cons. tauto.
Defined.

(** X13. For a net without arcs the table has exactly one entry per declared
    transition, each with two empty sets, and the engine then returns the
    initial marking alone. *)
Theorem adapter_no_arcs (net : PetriNet) :
  arcs net = [] →
  ∃ init tbl,
    convert_net_to_bfs_format net = Ok (init, tbl) ∧
    NoDup tbl.*1 ∧
    (∀ t, is_transition net t ↔ (t, mk_info ∅ ∅) ∈ tbl) ∧
    (∀ t info, (t, info) ∈ tbl → info = mk_info ∅ ∅) ∧
    ∀ fuel, find_reachable_markings_bfs (S fuel) init tbl = Ok {[init]}.
Proof.
  intros Harcs.
  destruct (convert_net_spec net)
    as (init & tbl & Hconv & _ & Hnd & Hkeys & Hent).
  pose proof (entries_well_formed _ _ _ _ Hent) as Hwf.
  assert (Hempty : ∀ t info, (t, info) ∈ tbl → info = mk_info ∅ ∅).
  { intros t info (pre & post & -> & Hpre & Hpost)%Hent. rewrite Harcs in *.
    f_equal; apply set_eq; intros p; split.
    - by intros (a & ?%elem_of_nil & _)%Hpre.
    - by intros ?%not_elem_of_empty.
    - by intros (a & ?%elem_of_nil & _)%Hpost.
    - by intros ?%not_elem_of_empty. }
  exists init, tbl. split_and!; [done|done| |done|].
  - intros t. rewrite <-Hkeys. split.
    + intros ([t' info] & -> & Hin)%list_elem_of_fmap. simpl.
      by rewrite <-(Hempty _ _ Hin).
    + intros Hin. apply list_elem_of_fmap. by exists (t, mk_info ∅ ∅).
  - intros fuel. unfold find_reachable_markings_bfs. simpl.
    rewrite for_transitions_nothing_new; [by destruct fuel|done|].
    intros m' ([t info] & Hin & Hf). simpl in *.
    rewrite (Hempty _ _ Hin) in Hf.
    apply fire_Some in Hf as (pre & post & Hpre & Hpost & _ & ->).
    rewrite mk_info_pre in Hpre. rewrite mk_info_post in Hpost.
    injection Hpre as <-. injection Hpost as <-.
    apply elem_of_singleton. apply set_eq. intros p.
    rewrite elem_of_union, elem_of_difference. set_solver.
Qed.

Lemma adapter_no_arcs_witness :
  ∃ init tbl,
    convert_net_to_bfs_format
      {| places := places net_a; transitions := transitions net_a;
         arcs := [] |} = Ok (init, tbl) ∧
    NoDup tbl.*1 ∧
    (∀ t, is_transition
            {| places := places net_a; transitions := transitions net_a;
               arcs := [] |} t ↔ (t, mk_info ∅ ∅) ∈ tbl) ∧
    (∀ t info, (t, info) ∈ tbl → info = mk_info ∅ ∅) ∧
    ∀ fuel, find_reachable_markings_bfs (S fuel) init tbl = Ok {[init]}.
Proof.
  exact (adapter_no_arcs
           {| places := places net_a; transitions := transitions net_a;
              arcs := [] |} eq_refl).
Defined.

(** ** A further property of the heap run *)

(** X14. The reference the engine returns is to an object that did not exist
    before the call, so the result is a new object and never one of the
    objects the caller already holds. *)
Theorem bfs_result_is_new (fuel : nat) (start_marking all_transitions : loc)
    (h : heap) (vl : loc) :
  (h_find_reachable_markings_bfs fuel start_marking all_transitions h).1
  = Ok vl →
  h !! vl = None.
Proof.
  intros Hout.
  destruct (keeps_find h fuel start_marking all_transitions h) as [_ Hnew];
    [done|].
  by apply Hnew.
Qed.

Lemma bfs_result_is_new_witness : heap_b !! 7%positive = None.
Proof.
  apply (bfs_result_is_new 4 1%positive 2%positive heap_b). compute_done.
Defined.

(** ** The command line *)

Lemma convert_then_engine (net : PetriNet) :
  ∃ init tbl V,
    convert_net_to_bfs_format net = Ok (init, tbl) ∧
    (∀ fuel, find_reachable_markings_bfs fuel init tbl
             = if decide (size V ≤ fuel) then Ok V else Timeout) ∧
    (∀ m, m ∈ V ↔ reachable tbl init m).
Proof.
  destruct (convert_net_spec net) as (init & tbl & Hconv & _ & _ & _ & Hent).
  pose proof (entries_well_formed _ _ _ _ Hent) as Hwf.
  destruct (wl_search_total fifo fifo_complete _ init tbl Hwf (le_n _))
    as [V HV].
  rewrite <-bfs_is_fifo_search in HV.
  exists init, tbl, V. split_and!; [done| |].
  - intros fuel. case_decide as Hle; [by eapply bfs_Ok_enough|].
    destruct (find_reachable_markings_bfs fuel init tbl) as [V'|e|] eqn:HV'.
    + pose proof (bfs_Ok_same _ _ _ _ _ _ HV HV') as ->.
      by apply bfs_Ok_iterations in HV'.
    + by apply bfs_wf_not_Raise in HV'.
    + done.
  - intros m. rewrite reachable_rtc. by eapply bfs_Ok_exact.
Qed.

Section printing.
Context (stdout_accepts : line → bool).

Lemma finish_print l (m : io ()) out :
  finish (print stdout_accepts l ≫= λ _, m) out
  = if stdout_accepts l then finish m (out ++ [l]) else (out, PrintRaised).
Proof.
  unfold finish, mbind, io_bind, print. by destruct (stdout_accepts l).
Qed.

Lemma finish_prints ls ls2 e (k : io ()) out :
  (∀ out', finish k out' = after out' (emit stdout_accepts ls2 e)) →
  finish (foldr (λ l m, print stdout_accepts l ≫= λ _, m) k ls) out
  = after out (emit stdout_accepts (ls ++ ls2) e).
Proof.
  intros Hk. revert out. induction ls as [|l ls IH]; intros out; simpl.
  - apply Hk.
  - rewrite finish_print. destruct (stdout_accepts l).
    + rewrite IH. unfold after.
      destruct (emit stdout_accepts (ls ++ ls2) e) as [o e']. simpl.
      by rewrite <-app_assoc.
    + unfold after. simpl. by rewrite app_nil_r.
Qed.

Lemma finish_end e out :
  finish (end_with e) out = after out (emit stdout_accepts [] e).
Proof. unfold finish, end_with, after. simpl. by rewrite app_nil_r. Qed.

Lemma print_markings_run i ms out :
  finish (print_markings stdout_accepts i ms) out
  = after out
      (emit stdout_accepts
         (imap (λ j m, Numbered (i + j + 1)
                         (if decide (m = ∅) then ShownText "∅"
                          else ShownSet m)) ms) Returns).
Proof.
  revert i out. induction ms as [|m ms IH]; intros i out; simpl.
  - unfold finish, after. simpl. by rewrite app_nil_r.
  - rewrite finish_print. rewrite Nat.add_0_r. destruct (stdout_accepts _).
    + rewrite IH. unfold after.
      rewrite (imap_ext _ (λ j m0, Numbered (i + S j + 1)
                 (if decide (m0 = ∅) then ShownText "∅" else ShownSet m0)));
        [|intros j x _; simpl; do 2 f_equal; lia].
      destruct (emit _ _ _) as [o e']. simpl. by rewrite <-app_assoc.
    + unfold after. simpl. by rewrite app_nil_r.
Qed.

Lemma emit_all ls e :
  Forall (λ l, stdout_accepts l = true) ls → emit stdout_accepts ls e = (ls, e).
Proof.
  induction 1 as [|l ls Hl _ IH]; simpl; [done|]. by rewrite Hl, IH.
Qed.

Lemma emit_first ls e k l :
  ls !! k = Some l → stdout_accepts l = false →
  (∀ j l', j < k → ls !! j = Some l' → stdout_accepts l' = true) →
  emit stdout_accepts ls e = (firstn k ls, PrintRaised).
Proof.
  revert k. induction ls as [|l0 ls IH]; intros [|k]; simpl; try done.
  - by intros [= ->] ->.
  - intros Hk Hl Hbefore. rewrite (Hbefore 0 l0) by (done || lia).
    rewrite (IH k); [done..|]. intros j l' Hj. apply (Hbefore (S j)). lia.
Qed.

Lemma emit_ending ls e :
  (emit stdout_accepts ls e).2 = e ∨
  (emit stdout_accepts ls e).2 = PrintRaised ∧
  ∃ l, l ∈ ls ∧ stdout_accepts l = false.
Proof.
  induction ls as [|l ls IH]; simpl; [by left|].
  destruct (stdout_accepts l) eqn:Hl.
  - destruct (emit stdout_accepts ls e) as [o e']. simpl in *.
    destruct IH as [?|[? (l' & ? & ?)]]; [by left|right].
    split; [done|]. exists l'. split; [by right|done].
  - right. split; [done|]. exists l. split; [left|done].
Qed.

Lemma emit_printed ls e l :
  l ∈ (emit stdout_accepts ls e).1 → l ∈ ls ∧ stdout_accepts l = true.
Proof.
  induction ls as [|l0 ls IH]; simpl; [by intros ?%elem_of_nil|].
  destruct (stdout_accepts l0) eqn:Hl0; [|by intros ?%elem_of_nil].
  destruct (emit stdout_accepts ls e) as [o e']. simpl in *.
  intros [->|Hin]%elem_of_cons; [split; [left|done]|].
  destruct (IH Hin). split; [by right|done].
Qed.
End printing.

(** A run of [main] whose parse succeeds, as a list of lines to print. *)
Lemma main_run_emit (parse : string → PetriNet + string)
    (iteration_order : gset (gset string) → list (gset string))
    (stdout_accepts : line → bool) (fuel : nat) (argv0 path : string)
    (net : PetriNet) init tbl (V : gset (gset string)) :
  parse path = inl net →
  convert_net_to_bfs_format net = Ok (init, tbl) →
  find_reachable_markings_bfs fuel init tbl
  = (if decide (size V ≤ fuel) then Ok V else Timeout) →
  run (main parse iteration_order stdout_accepts fuel argv0 [path])
  = if decide (size V ≤ fuel)
    then emit stdout_accepts (report_lines path V (iteration_order V)) Returns
    else emit stdout_accepts (firstn 3 (report_lines path V (iteration_order V)))
           Unfinished.
Proof.
  intros Hparse Hconv Hfind.
  assert (Hafter : ∀ r : list line * ending, after [] r = r) by (by intros []).
  unfold main. simpl. rewrite Hparse, Hconv, Hfind. case_decide.
  - pose proof (finish_prints stdout_accepts
      [Text ("Parsing PNML file: " +:+ path +:+ "...");
       Text "Parsing complete.";
       Text "Starting BFS to find reachable markings...";
       Text (newline +:+ "--- Task 2 Results ---");
       Total (size V);
       Text "All Reachable Markings:"] _ Returns
      (print_markings stdout_accepts 0 (iteration_order V)) []
      (print_markings_run stdout_accepts 0 (iteration_order V))) as Hp.
    cbn [foldr] in Hp. unfold run. unfold finish in Hp at 1. rewrite Hp.
    rewrite Hafter. reflexivity.
  - pose proof (finish_prints stdout_accepts
      [Text ("Parsing PNML file: " +:+ path +:+ "...");
       Text "Parsing complete.";
       Text "Starting BFS to find reachable markings..."] [] Unfinished
      (end_with Unfinished) []
      (finish_end stdout_accepts Unfinished)) as Hp.
    cbn [foldr] in Hp. unfold run. unfold finish in Hp at 1. rewrite Hp.
    rewrite Hafter. reflexivity.
Qed.

(** Every run of the script prints some list of lines, as far as the output
    takes them, and then ends in a way fixed by the arguments. *)
Lemma script_path (pnml_parser : option (string → PetriNet + string))
    (iteration_order : gset (gset string) → list (gset string))
    (stdout_accepts : line → bool)
    (fuel : nat) (argv0 : string) (args : list string) :
  ∃ ls e,
    script pnml_parser iteration_order stdout_accepts fuel argv0 args
    = emit stdout_accepts ls e ∧
    ((e = SystemExit 1 ∧ (∀ l, l ∈ ls → ∃ s, l = Text s) ∧
      ¬ ∃ parse path net,
          pnml_parser = Some parse ∧ args = [path] ∧ parse path = inl net) ∨
     ((e = Returns ∨ e = Unfinished) ∧
      ∃ parse path net,
        pnml_parser = Some parse ∧ args = [path] ∧ parse path = inl net)).
Proof.
  assert (Htext2 : ∀ a b l, l ∈ [Text a; Text b] → ∃ s, l = Text s).
  { intros a b l [->|[->|[]%elem_of_nil]%elem_of_cons]%elem_of_cons; eauto. }
  assert (Hafter : ∀ r : list line * ending, after [] r = r) by (by intros []).
  assert (Hexit : ∀ a b,
    run (_ ← print stdout_accepts a; _ ← print stdout_accepts b;
         end_with (SystemExit 1))
    = emit stdout_accepts [a; b] (SystemExit 1)).
  { intros a b.
    pose proof (finish_prints stdout_accepts [a; b] [] (SystemExit 1)
                  (end_with (SystemExit 1)) []
                  (finish_end stdout_accepts (SystemExit 1))) as H.
    cbn [foldr app] in H. unfold run. unfold finish in H at 1. rewrite H.
    apply Hafter. }
  unfold script. destruct pnml_parser as [parse|].
  2:{ eexists [_; _], (SystemExit 1). split; [apply Hexit|].
      left. split_and!; [done|apply Htext2|]. by intros (? & ? & ? & ? & _). }
  destruct (decide (length (argv0 :: args) ≠ 2)) as [Hlen|Hlen].
  { unfold main. rewrite bool_decide_eq_true_2 by done.
    eexists [_; _], (SystemExit 1). split; [apply Hexit|].
    left. split_and!; [done|apply Htext2|].
    intros (? & path & ? & _ & -> & _). by simpl in Hlen. }
  destruct args as [|path [|]]; simpl in Hlen; [lia| |lia].
  destruct (parse path) as [net|msg] eqn:Hparse.
  2:{ unfold main. simpl. rewrite Hparse.
      eexists [_; _], (SystemExit 1). split; [apply Hexit|].
      left. split_and!; [done|apply Htext2|].
      intros (? & ? & ? & [= <-] & [= <-] & ?). congruence. }
  destruct (convert_then_engine net) as (init & tbl & V & Hconv & Hfind & _).
  rewrite (main_run_emit _ _ _ _ _ _ _ _ _ V Hparse Hconv (Hfind fuel)).
  case_decide.
  - eexists _, Returns. split; [done|].
    right. split; [by left|]. by exists parse, path, net.
  - eexists _, Unfinished. split; [done|].
    right. split; [by right|]. by exists parse, path, net.
Qed.

(** X15. With a parser that yields a net or raises [PNMLParserError], no
    exception of the adapter or the engine escapes the script, and a [print]
    raises only on a line the standard output cannot take.  The script calls
    [sys.exit] only with status 1 and only when the parser module is missing,
    the argument count is not one, or parsing fails, having printed plain
    messages and no result; when the output takes every plain message, it
    does so in each of those cases. *)
Theorem script_endings (pnml_parser : option (string → PetriNet + string))
    (iteration_order : gset (gset string) → list (gset string))
    (stdout_accepts : line → bool)
    (fuel : nat) (argv0 : string) (args : list string) :
  let r := script pnml_parser iteration_order stdout_accepts fuel argv0 args in
  let parsed := ∃ parse path net,
    pnml_parser = Some parse ∧ args = [path] ∧ parse path = inl net in
  (∀ e, r.2 ≠ Uncaught e) ∧
  (∀ l, l ∈ r.1 → stdout_accepts l = true) ∧
  (r.2 = PrintRaised → ∃ l, stdout_accepts l = false) ∧
  (∀ code, r.2 = SystemExit code →
     code = 1%Z ∧ (∀ l, l ∈ r.1 → ∃ s, l = Text s) ∧ ¬ parsed) ∧
  ((∀ s, stdout_accepts (Text s) = true) → ¬ parsed → r.2 = SystemExit 1).
Proof.
  intros r parsed.
  destruct (script_path pnml_parser iteration_order stdout_accepts fuel argv0
              args) as (ls & e & Hr & Hcases).
  fold r in Hr. fold parsed in Hcases.
  pose proof (emit_ending stdout_accepts ls e) as Hend.
  pose proof (emit_printed stdout_accepts ls e) as Hprinted.
  rewrite <-Hr in Hend, Hprinted. split_and!.
  - intros e0 He0.
    destruct Hend as [He|[He _]]; rewrite He in He0; [|done].
    destruct Hcases as [(-> & _)|([->| ->] & _)]; done.
  - intros l Hl. by apply Hprinted.
  - intros Hraised. destruct Hend as [He|[_ (l & _ & Hl)]]; [|by eauto].
    rewrite He in Hraised.
    destruct Hcases as [(-> & _)|([->| ->] & _)]; done.
  - intros code Hcode.
    destruct Hend as [He|[He _]]; rewrite He in Hcode; [|done].
    destruct Hcases as [(-> & Htext & Hnot)|([->| ->] & _)]; [|done..].
    injection Hcode as <-. split_and!; [done| |done].
    intros l Hl. by apply Htext, Hprinted.
  - intros Htexts Hnot.
    destruct Hcases as [(-> & Htext & _)|(_ & Hparsed)]; [|done].
    rewrite Hr, emit_all; [done|]. apply Forall_forall. intros l Hl.
    destruct (Htext l Hl) as [s ->]. apply Htexts.
Qed.

(** X16. When parsing succeeds, [main] reports the markings reachable in the
    converted net: given as many engine iterations as there are markings, it
    prints the progress lines, the header, their count and one numbered line
    per marking (from 1, each marking once, the empty marking as [∅]) and
    returns, provided the output takes every line; it stops with the
    [print] error at the first line the output cannot take.  With fewer
    iterations the engine is still running after the progress lines. *)
Theorem main_reports_reachable (parse : string → PetriNet + string)
    (iteration_order : gset (gset string) → list (gset string))
    (stdout_accepts : line → bool)
    (argv0 path : string) (net : PetriNet) :
  (∀ V, iteration_order V ≡ₚ elements V) → parse path = inl net →
  ∃ init tbl (V : gset (gset string)) ms,
    convert_net_to_bfs_format net = Ok (init, tbl) ∧
    (∀ m, m ∈ V ↔ reachable tbl init m) ∧
    ms ≡ₚ elements V ∧ NoDup ms ∧ length ms = size V ∧
    ∀ fuel,
      let r := run (main parse iteration_order stdout_accepts fuel argv0
                      [path]) in
      let L := report_lines path V ms in
      (size V ≤ fuel → Forall (λ l, stdout_accepts l = true) L →
       r = (L, Returns)) ∧
      (size V ≤ fuel →
       ∀ k l, L !! k = Some l → stdout_accepts l = false →
              (∀ j l', j < k → L !! j = Some l' → stdout_accepts l' = true) →
              r = (firstn k L, PrintRaised)) ∧
      (fuel < size V → Forall (λ l, stdout_accepts l = true) (firstn 3 L) →
       r = (firstn 3 L, Unfinished)).
Proof.
  intros Horder Hparse.
  destruct (convert_then_engine net) as (init & tbl & V & Hconv & Hfind & HV).
  exists init, tbl, V, (iteration_order V). split_and!; [done..| | |].
  - rewrite Horder. apply NoDup_elements.
  - by rewrite Horder.
  - intros fuel r L. unfold r.
    rewrite (main_run_emit _ _ _ _ _ _ _ _ _ V Hparse Hconv (Hfind fuel)).
    fold L. split_and!.
    + intros Hle Hall. rewrite decide_True by done. by apply emit_all.
    + intros Hle k l Hk Hl Hbefore. rewrite decide_True by done.
      by eapply emit_first.
    + intros Hlt Hall. rewrite decide_False by lia. by apply emit_all.
Qed.

Lemma main_reports_reachable_witness :
  ∃ init tbl (V : gset (gset string)) ms,
    convert_net_to_bfs_format net_a = Ok (init, tbl) ∧
    (∀ m, m ∈ V ↔ reachable tbl init m) ∧
    ms ≡ₚ elements V ∧ NoDup ms ∧ length ms = size V ∧
    ∀ fuel,
      let r := run (main (λ _, inl net_a) elements (λ _, true) fuel
                      "reachability.py" ["a.pnml"]) in
      let L := report_lines "a.pnml" V ms in
      (size V ≤ fuel → Forall (λ l, (λ _ : line, true) l = true) L →
       r = (L, Returns)) ∧
      (size V ≤ fuel →
       ∀ k l, L !! k = Some l → (λ _ : line, true) l = false →
              (∀ j l', j < k → L !! j = Some l' →
                       (λ _ : line, true) l' = true) →
              r = (firstn k L, PrintRaised)) ∧
      (fuel < size V →
       Forall (λ l, (λ _ : line, true) l = true) (firstn 3 L) →
       r = (firstn 3 L, Unfinished)).
Proof.
  exact (main_reports_reachable (λ _, inl net_a) elements (λ _, true)
           "reachability.py" "a.pnml" net_a
           (λ V, reflexivity (elements V)) eq_refl).
Defined.

(** On an output that cannot take [∅], listing a reachable empty marking makes
    [print] raise: the script ends there, without returning. *)
Example print_raises_on_empty_marking :
  ∃ out, script (Some (λ _, inl net_drain)) elements ascii_stdout 2
           "reachability.py" ["drain.pnml"] = (out, PrintRaised) ∧
         length out < length (report_lines "drain.pnml" {[ {["p1"]}; ∅ ]}
                                (elements ({[ {["p1"]}; ∅ ]}
                                           : gset (gset string)))).
Proof.
  eexists. split.
  - vm_compute. reflexivity.
  - vm_compute. lia.
Qed.
